(** * PTC-Sim, static/js/home.js: the home page's client-side script

    A shallow embedding of the script and the properties of its popup
    persistence class, selection toggle and refresh handler.

    The script is event driven and single threaded: every handler runs to
    completion on the page's state.  A handler is modelled as an action of
    a state-and-exception monad over [World]; an exception (a TypeError
    from a property read on null or undefined) ends the handler and keeps
    the mutations done so far, as in JavaScript. *)

From stdpp Require Import base option list gmap strings.
From Stdlib Require QArith.QArith_base.

(** ** Values of the page *)

(** A JSON number that the script only passes through (coordinates). *)
Definition number : Type := QArith_base.Q.

Record LatLng := { lat : number; lng : number }.

(** [google.maps.InfoWindow]: an object (identity [iw_id]) and its content. *)
Record InfoWindow := { iw_id : nat; content : string }.

(** [google.maps.Marker].  [title] is given at construction and never
    reassigned.  [listener_infobox] is the info window captured by the
    closure this marker's click listener was built from (home.js:187-203). *)
Record Marker := {
  mk_id : nat;
  title : string;
  position : LatLng;
  icon : string;
  listener_infobox : InfoWindow
}.

(** [google.maps.Polyline]. *)
Record Polyline := { pl_id : nat; path : list LatLng }.

(** An element of the document that carries an id: its [id] attribute, the
    tokens of its [className] and its text. *)
Record Element := { el_id : string; el_class : list string; el_text : string }.

(** class PersistInfobox (home.js:32-72): two fields, each null or an object. *)
Record PersistInfobox := {
  infobox : option InfoWindow;
  marker : option Marker
}.

(** What a query of the class returns.  [a && b] returns [a] itself when
    [a] is falsy, so [is_for_device] and [is_loco] return null, not false,
    when no marker is held. *)
Inductive value := VNull | VBool (b : bool).

(** ToBoolean on the values above. *)
Definition truthy (v : value) : bool :=
  match v with VNull => false | VBool b => b end.

(** ToBoolean on a field that holds null or an object. *)
Definition is_object {A} (o : option A) : bool :=
  match o with Some _ => true | None => false end.

(** ToBoolean on a variable that holds null or a string: the empty string
    is falsy. *)
Definition truthy_str (o : option string) : bool :=
  match o with
  | Some s => negb (String.eqb s "")
  | None => false
  end.

(** [curr == name] where [curr] is null or a string and [name] a string. *)
Definition loose_eq (curr : option string) (name : string) : bool :=
  match curr with
  | Some c => String.eqb c name
  | None => false
  end.

(** [String.prototype.includes]. *)
Fixpoint includes (sub s : string) : bool :=
  String.prefix sub s ||
  match s with
  | EmptyString => false
  | String _ s' => includes sub s'
  end.

(** ** The server's answer (spec section 6) *)

Record MarkerDesc := {
  d_lat : number;
  d_lng : number;
  d_icon : string;
  d_title : string;
  d_infobox : string
}.

Record StatusMap := { markers : list MarkerDesc }.

Record Payload := {
  shuffle_data : gmap string string;
  locos_table : string;
  loco_connlines : list (list LatLng);
  status_map : StatusMap
}.

(** The [data] argument of the success handler: a text body or the parsed
    JSON object. *)
Inductive Data := DText (s : string) | DJson (p : Payload).

(** ** Calls that leave the script, in the order they are made *)

Inductive Event :=
| EInfoOpen (iw : InfoWindow) (anchor : option Marker)
| EInfoClose (iw : InfoWindow)
| EMarkerOff (m : Marker)
| EPolylineOff (p : Polyline)
| EAjax (loco_name : option string)
| EShuffle (id : string)
| EConsoleError (msg : string)
| EConsoleLog (msg : string).

(** ** The page's state *)

Record World := {
  curr_loco : option string;             (* home.js:22 *)
  curr_polylines : list Polyline;        (* home.js:23 *)
  persist_infobox : PersistInfobox;      (* home.js:27, the one instance *)
  status_map_markers : list Marker;      (* global of the map template *)
  needs_txtshuffle : list string;        (* implicit global, home.js:117 *)
  locos_table_html : string;             (* content of #locos-table *)
  elements : list Element;               (* the document, in document order *)
  render : list Element → string → list Element;
                                         (* the browser: the document once the
                                            content of #locos-table is replaced
                                            by the given HTML *)
  on_map : gset nat;                     (* objects attached to status_map *)
  next_id : nat;                         (* identity of the next new object *)
  trace : list Event                     (* oldest first *)
}.

Definition with_curr_loco (v : option string) (w : World) : World :=
  {| curr_loco := v; curr_polylines := curr_polylines w;
     persist_infobox := persist_infobox w;
     status_map_markers := status_map_markers w;
     needs_txtshuffle := needs_txtshuffle w;
     locos_table_html := locos_table_html w; elements := elements w;
     render := render w;
     on_map := on_map w; next_id := next_id w; trace := trace w |}.

Definition with_curr_polylines (v : list Polyline) (w : World) : World :=
  {| curr_loco := curr_loco w; curr_polylines := v;
     persist_infobox := persist_infobox w;
     status_map_markers := status_map_markers w;
     needs_txtshuffle := needs_txtshuffle w;
     locos_table_html := locos_table_html w; elements := elements w;
     render := render w;
     on_map := on_map w; next_id := next_id w; trace := trace w |}.

Definition with_persist_infobox (v : PersistInfobox) (w : World) : World :=
  {| curr_loco := curr_loco w; curr_polylines := curr_polylines w;
     persist_infobox := v;
     status_map_markers := status_map_markers w;
     needs_txtshuffle := needs_txtshuffle w;
     locos_table_html := locos_table_html w; elements := elements w;
     render := render w;
     on_map := on_map w; next_id := next_id w; trace := trace w |}.

Definition with_status_map_markers (v : list Marker) (w : World) : World :=
  {| curr_loco := curr_loco w; curr_polylines := curr_polylines w;
     persist_infobox := persist_infobox w;
     status_map_markers := v;
     needs_txtshuffle := needs_txtshuffle w;
     locos_table_html := locos_table_html w; elements := elements w;
     render := render w;
     on_map := on_map w; next_id := next_id w; trace := trace w |}.

Definition with_needs_txtshuffle (v : list string) (w : World) : World :=
  {| curr_loco := curr_loco w; curr_polylines := curr_polylines w;
     persist_infobox := persist_infobox w;
     status_map_markers := status_map_markers w;
     needs_txtshuffle := v;
     locos_table_html := locos_table_html w; elements := elements w;
     render := render w;
     on_map := on_map w; next_id := next_id w; trace := trace w |}.

Definition with_document (h : string) (els : list Element) (w : World) : World :=
  {| curr_loco := curr_loco w; curr_polylines := curr_polylines w;
     persist_infobox := persist_infobox w;
     status_map_markers := status_map_markers w;
     needs_txtshuffle := needs_txtshuffle w;
     locos_table_html := h; elements := els;
     render := render w;
     on_map := on_map w; next_id := next_id w; trace := trace w |}.

Definition with_on_map (v : gset nat) (w : World) : World :=
  {| curr_loco := curr_loco w; curr_polylines := curr_polylines w;
     persist_infobox := persist_infobox w;
     status_map_markers := status_map_markers w;
     needs_txtshuffle := needs_txtshuffle w;
     locos_table_html := locos_table_html w; elements := elements w;
     render := render w;
     on_map := v; next_id := next_id w; trace := trace w |}.

Definition with_next_id (v : nat) (w : World) : World :=
  {| curr_loco := curr_loco w; curr_polylines := curr_polylines w;
     persist_infobox := persist_infobox w;
     status_map_markers := status_map_markers w;
     needs_txtshuffle := needs_txtshuffle w;
     locos_table_html := locos_table_html w; elements := elements w;
     render := render w;
     on_map := on_map w; next_id := v; trace := trace w |}.

Definition with_trace (v : list Event) (w : World) : World :=
  {| curr_loco := curr_loco w; curr_polylines := curr_polylines w;
     persist_infobox := persist_infobox w;
     status_map_markers := status_map_markers w;
     needs_txtshuffle := needs_txtshuffle w;
     locos_table_html := locos_table_html w; elements := elements w;
     render := render w;
     on_map := on_map w; next_id := next_id w; trace := v |}.

(** ** Handlers: state and exceptions *)

Inductive outcome (A : Type) := Ok (a : A) | TypeError.
Arguments Ok {A} a.
Arguments TypeError {A}.

Definition M (A : Type) : Type := World → outcome A * World.

Global Instance M_ret : MRet M := λ A a w, (Ok a, w).

Global Instance M_bind : MBind M := λ A B f m w,
  match m w with
  | (Ok a, w') => f a w'
  | (TypeError, w') => (TypeError, w')
  end.

Definition gets {A} (f : World → A) : M A := λ w, (Ok (f w), w).
Definition modify (f : World → World) : M unit := λ w, (Ok tt, f w).
Definition throw {A} : M A := λ w, (TypeError, w).

(** Reading a property or calling a method of [o]: a TypeError on null. *)
Definition deref {A} (o : option A) : M A :=
  match o with
  | Some a => mret a
  | None => throw
  end.

Definition emit (e : Event) : M unit :=
  modify (λ w, with_trace (trace w ++ [e]) w).

(** The state a handler leaves, and what it returned. *)
Definition exec {A} (m : M A) (w : World) : World := snd (m w).
Definition result {A} (m : M A) (w : World) : outcome A := fst (m w).

Fixpoint for_each {A} (f : A → M unit) (l : list A) : M unit :=
  match l with
  | [] => mret tt
  | x :: l' => f x ;; for_each f l'
  end.

(** ** The map library, as far as the script drives it *)

(** [infowindow.open(status_map, anchor)] *)
Definition InfoWindow_open (iw : InfoWindow) (anchor : option Marker) : M unit :=
  modify (λ w, with_on_map ({[iw_id iw]} ∪ on_map w) w) ;;
  emit (EInfoOpen iw anchor).

(** [infowindow.close()] *)
Definition InfoWindow_close (iw : InfoWindow) : M unit :=
  modify (λ w, with_on_map (on_map w ∖ {[iw_id iw]}) w) ;;
  emit (EInfoClose iw).

(** [infowindow.getMap()], as a truth value *)
Definition InfoWindow_getMap (iw : InfoWindow) : M bool :=
  gets (λ w, bool_decide (iw_id iw ∈ on_map w)).

(** ** class PersistInfobox (home.js:32-72)

    [this] is the single instance that the global [persist_infobox] holds. *)

(** [constructor(infobox=null, marker=null)]; an omitted argument is [None]. *)
Definition constructor (i : option InfoWindow) (m : option Marker) : PersistInfobox :=
  {| infobox := i; marker := m |}.

(** [set(infobox, marker, map)]; the third parameter is never read, and the
    one call (home.js:200) passes two arguments. *)
Definition set (i : option InfoWindow) (m : option Marker) : M unit :=
  modify (with_persist_infobox {| infobox := i; marker := m |}).

Definition clear : M unit :=
  modify (with_persist_infobox {| infobox := None; marker := None |}).

Definition is_set : M value :=
  this ← gets persist_infobox;
  mret (VBool (negb (is_object (infobox this)))).

Definition open : M unit :=
  this ← gets persist_infobox;
  if is_object (infobox this) then
    iw ← deref (infobox this);
    InfoWindow_open iw (marker this)
  else mret tt.

Definition close : M unit :=
  this ← gets persist_infobox;
  if is_object (infobox this) then
    iw ← deref (infobox this);
    InfoWindow_close iw ;;
    clear
  else mret tt.

Definition is_for_device (device_name : string) : M value :=
  this ← gets persist_infobox;
  if is_object (marker this) then
    m ← deref (marker this);
    mret (VBool (String.eqb (title m) device_name))
  else mret VNull.

Definition is_loco : M value :=
  this ← gets persist_infobox;
  if is_object (marker this) then
    m ← deref (marker this);
    mret (VBool (includes "Loco" (title m)))
  else mret VNull.

(** ** Refreshing the page (home.js:92-217) *)

(** [_get_content_async()]: the request carries the current selection; its
    answer is handled later, by [success] or [error]. *)
Definition _get_content_async : M unit :=
  c ← gets curr_loco;
  emit (EAjax c).

(** The [error] callback (home.js:103-107). *)
Definition error (textStatus : string) : M unit :=
  if String.eqb textStatus "timeout"
  then emit (EConsoleLog "Content refresh request timed out.")
  else mret tt.

(** [data == 'error'] *)
Definition is_error_sentinel (data : Data) : bool :=
  match data with
  | DText s => String.eqb s "error"
  | DJson _ => false
  end.

(** Property reads on [data]: undefined ([None]) on a text body. *)
Definition get_shuffle_data (data : Data) : option (gmap string string) :=
  match data with DJson p => Some (shuffle_data p) | DText _ => None end.
Definition get_locos_table (data : Data) : option string :=
  match data with DJson p => Some (locos_table p) | DText _ => None end.
Definition get_loco_connlines (data : Data) : option (list (list LatLng)) :=
  match data with DJson p => Some (loco_connlines p) | DText _ => None end.
Definition get_status_map (data : Data) : option StatusMap :=
  match data with DJson p => Some (status_map p) | DText _ => None end.

(** [$('.shuffleable')]: the elements of that class, in document order. *)
Definition shuffleable (els : list Element) : list Element :=
  filter (λ e, "shuffleable" ∈ el_class e) els.

(** [text != new_value], where [new_value] is a string or undefined. *)
Definition loose_neq (text : string) (new_value : option string) : bool :=
  match new_value with
  | Some v => negb (String.eqb text v)
  | None => true
  end.

(** One round of the first [.each] (home.js:118-123). *)
Definition note_if_changed (data : Data) (e : Element) : M unit :=
  sd ← deref (get_shuffle_data data);
  if loose_neq (el_text e) (sd !! el_id e)
  then modify (λ w, with_needs_txtshuffle (needs_txtshuffle w ++ [el_id e]) w)
  else mret tt.

(** home.js:117-123 *)
Definition compute_needs_txtshuffle (data : Data) : M unit :=
  modify (with_needs_txtshuffle []) ;;
  els ← gets (λ w, shuffleable (elements w));
  for_each (note_if_changed data) els.

(** [document.getElementById(id)] *)
Definition getElementById (id : string) (els : list Element) : option Element :=
  List.find (λ e, String.eqb (el_id e) id) els.

(** [document.getElementById(id).className = cls], once the element is known
    to exist: the first element of that id gets the class. *)
Fixpoint set_className (id cls : string) (els : list Element) : list Element :=
  match els with
  | [] => []
  | e :: els' =>
      if String.eqb (el_id e) id
      then {| el_id := el_id e; el_class := [cls]; el_text := el_text e |} :: els'
      else e :: set_className id cls els'
  end.

(** home.js:126-129.  [.html(undefined)] reads the content and changes
    nothing. *)
Definition refresh_locos_table (data : Data) : M unit :=
  match get_locos_table data with
  | Some h => modify (λ w, with_document h (render w (elements w) h) w)
  | None => mret tt
  end ;;
  c ← gets curr_loco;
  if truthy_str c then
    id ← deref c;
    els ← gets elements;
    _ ← deref (getElementById id els);
    modify (λ w, with_document (locos_table_html w) (set_className id "clicked" els) w)
  else mret tt.

(** home.js:133-140 *)
Definition shuffle_changed : M unit :=
  els ← gets (λ w, shuffleable (elements w));
  for_each (λ e,
    needs ← gets needs_txtshuffle;
    if bool_decide (el_id e ∈ needs) then emit (EShuffle (el_id e)) else mret tt) els.

(** home.js:144-152 *)
Definition remove_markers_and_polylines : M unit :=
  ms ← gets status_map_markers;
  for_each (λ m,
    modify (λ w, with_on_map (on_map w ∖ {[mk_id m]}) w) ;;
    emit (EMarkerOff m)) ms ;;
  modify (with_status_map_markers []) ;;
  ps ← gets curr_polylines;
  for_each (λ p,
    modify (λ w, with_on_map (on_map w ∖ {[pl_id p]}) w) ;;
    emit (EPolylineOff p)) ps ;;
  modify (with_curr_polylines []).

(** [new google.maps.X({..., map: status_map})]: a fresh object, on the map
    when [attach]. *)
Definition new_object (attach : bool) : M nat :=
  id ← gets next_id;
  modify (with_next_id (S id)) ;;
  (if attach then modify (λ w, with_on_map ({[id]} ∪ on_map w) w) else mret tt) ;;
  mret id.

(** home.js:155-167.  [$.each(undefined, f)] runs no round. *)
Definition create_polylines (data : Data) : M unit :=
  for_each (λ pth,
    id ← new_object true;
    modify (λ w, with_curr_polylines
                   (curr_polylines w ++ [{| pl_id := id; path := pth |}]) w))
    (default [] (get_loco_connlines data)).

(** home.js:170-207 *)
Definition create_markers (data : Data) : M unit :=
  sm ← deref (get_status_map data);
  for_each (λ d,
    mid ← new_object true;
    iid ← new_object false;
    let infobox := {| iw_id := iid; content := d_infobox d |} in
    let marker := {| mk_id := mid; title := d_title d;
                     position := {| lat := d_lat d; lng := d_lng d |};
                     icon := d_icon d; listener_infobox := infobox |} in
    modify (λ w, with_status_map_markers (status_map_markers w ++ [marker]) w))
    (markers sm).

(** The [success] callback (home.js:109-215).  The two debug lines read the
    clock; the message is recorded without the duration. *)
Definition success (data : Data) : M unit :=
  if is_error_sentinel data then
    emit (EConsoleError "Server available but failed returning content.")
  else
    compute_needs_txtshuffle data ;;
    refresh_locos_table data ;;
    shuffle_changed ;;
    remove_markers_and_polylines ;;
    create_polylines data ;;
    create_markers data ;;
    open ;;
    emit (EConsoleLog "Home Refreshed - client side took: ").

(** A marker's click listener (home.js:193-203), for the marker [m] and the
    info window its closure captured. *)
Definition marker_click (m : Marker) : M unit :=
  let infobox := listener_infobox m in
  shown ← InfoWindow_getMap infobox;
  if (shown : bool) then close
  else
    close ;;
    set (Some infobox) (Some m) ;;
    open.

(** ** Selecting a row of the locos table (home.js:77-90) *)

Definition home_select_loco (loco_name : string) : M unit :=
  c ← gets curr_loco;
  (if loose_eq c loco_name then
     modify (with_curr_loco None)
   else
     modify (with_curr_loco (Some loco_name)) ;;
     l ← is_loco;
     if truthy l then
       d ← is_for_device loco_name;
       if negb (truthy d) then close else mret tt
     else mret tt) ;;
  _get_content_async.

(** ** The page as a transition system *)

(** What the page reacts to. *)
Inductive Input :=
| RowClick (loco_name : string)      (* a row of the locos table *)
| MarkerClick (m : Marker)           (* a marker on the map *)
| Tick                               (* the refresh timer, home.js:249-251 *)
| Response (data : Data)             (* the request succeeded *)
| Failure (textStatus : string).     (* the request failed *)

Definition handler (i : Input) : M unit :=
  match i with
  | RowClick n => home_select_loco n
  | MarkerClick m => marker_click m
  | Tick => _get_content_async
  | Response data => success data
  | Failure textStatus => error textStatus
  end.

(** The script as loaded: home.js:22-27 and 73. *)
Definition loaded (w : World) : Prop :=
  curr_loco w = None ∧
  curr_polylines w = [] ∧
  persist_infobox w = constructor None None ∧
  trace w = [].

(** Only a marker this script created and still shows can be clicked. *)
Inductive reachable : World → Prop :=
| reach_loaded w : loaded w → reachable w
| reach_step w i :
    reachable w →
    (∀ m, i = MarkerClick m → m ∈ status_map_markers w) →
    reachable (exec (handler i) w).

(** The two fields hold an object together or null together. *)
Definition paired (p : PersistInfobox) : Prop :=
  is_object (infobox p) = is_object (marker p).

(** ** Specifications the properties are stated with *)

(** [s] contains [sub]: the specification of [includes]. *)
Definition contains (sub s : string) : Prop :=
  ∃ pre post, s = pre +:+ sub +:+ post.

(** [m] leaves the component [f] of the state as it found it, whether it
    returns or throws. *)
Definition preserves {X A} (f : World → X) (m : M A) : Prop :=
  ∀ w, f (exec m w) = f w.

(** [m] returns on every state. *)
Definition returns {A} (m : M A) : Prop := ∀ w, ∃ a, result m w = Ok a.

(** The refresh diff as the specification words it: the ids of the cells
    whose new value differs from the displayed one, in the order of the
    cells. *)
Definition changed_ids (new : gmap string string) (cells : list Element) : list string :=
  el_id <$> filter (λ e, new !! el_id e ≠ Some (el_text e)) cells.

(** The kind query as the specification words it, for a label of the
    caller's choice. *)
Definition is_of_kind_as_specified (label : string) (w : World) : Prop :=
  result is_loco w = Ok (VBool true) ↔
  ∃ iw m, persist_infobox w = {| infobox := Some iw; marker := Some m |} ∧
          contains label (title m).

(** The state once the refresh request is issued. *)
Definition requested (w : World) : World :=
  with_trace (trace w ++ [EAjax (curr_loco w)]) w.

(** The condition of home.js:84 on the persisted popup. *)
Definition other_loco_popup (n : string) (w : World) : bool :=
  match marker (persist_infobox w) with
  | Some m => includes "Loco" (title m) && negb (String.eqb (title m) n)
  | None => false
  end.

(** The page after a sequence of inputs, each handled to completion. *)
Definition run (inputs : list Input) (w : World) : World :=
  foldl (λ w i, exec (handler i) w) w inputs.

(** No input of the sequence is a click on a row of the locos table. *)
Definition no_row_click (inputs : list Input) : Prop :=
  Forall (λ i, match i with RowClick _ => False | _ => True end) inputs.

(** ** Sample pages *)

Definition origin : LatLng :=
  {| lat := QArith_base.Qmake 0 1; lng := QArith_base.Qmake 0 1 |}.

Definition iw_base3 : InfoWindow := {| iw_id := 1; content := "Base 3: up" |}.
Definition mk_base3 : Marker :=
  {| mk_id := 0; title := "Base 3"; position := origin; icon := "base.png";
     listener_infobox := iw_base3 |}.

Definition iw_loco1002 : InfoWindow := {| iw_id := 3; content := "Loco 1002" |}.
Definition mk_loco1002 : Marker :=
  {| mk_id := 2; title := "Loco 1002"; position := origin; icon := "loco.png";
     listener_infobox := iw_loco1002 |}.

Definition cell_speed : Element :=
  {| el_id := "1001-speed"; el_class := ["shuffleable"]; el_text := "42" |}.

(** The page as loaded, with two markers drawn and no popup. *)
Definition page0 : World :=
  {| curr_loco := None; curr_polylines := [];
     persist_infobox := constructor None None;
     status_map_markers := [mk_base3; mk_loco1002];
     needs_txtshuffle := [];
     locos_table_html := "<tr id='Loco 1001'></tr>";
     elements := [cell_speed];
     render := λ els _, els;
     on_map := {[0; 2]}; next_id := 4; trace := [] |}.

(** The same page with the popup of [m] open and persisted. *)
Definition page_with_popup (iw : InfoWindow) (m : Marker) : World :=
  with_on_map ({[iw_id iw]} ∪ on_map page0)
    (with_persist_infobox {| infobox := Some iw; marker := Some m |} page0).

(** ** The refresh, step by step *)

(** Identities of the objects the script holds. *)
Definition marker_ids (w : World) : gset nat :=
  list_to_set (mk_id <$> status_map_markers w).
Definition polyline_ids (w : World) : gset nat :=
  list_to_set (pl_id <$> curr_polylines w).
Definition listener_ids (w : World) : gset nat :=
  list_to_set ((λ m, iw_id (listener_infobox m)) <$> status_map_markers w).
Definition popup_ids (w : World) : gset nat :=
  match infobox (persist_infobox w) with
  | Some iw => {[iw_id iw]}
  | None => ∅
  end.

(** The polylines that home.js:155-167 draws for the given paths, the first
    taking the identity [start]. *)
Fixpoint build_polylines (start : nat) (paths : list (list LatLng)) : list Polyline :=
  match paths with
  | [] => []
  | pth :: paths' =>
      {| pl_id := start; path := pth |} :: build_polylines (S start) paths'
  end.

(** The markers that home.js:170-207 draws for the given descriptors: each
    descriptor takes two identities, the marker's and then its info
    window's, the first marker taking [start]. *)
Fixpoint build_markers (start : nat) (ds : list MarkerDesc) : list Marker :=
  match ds with
  | [] => []
  | d :: ds' =>
      {| mk_id := start; title := d_title d;
         position := {| lat := d_lat d; lng := d_lng d |};
         icon := d_icon d;
         listener_infobox := {| iw_id := S start; content := d_infobox d |} |}
      :: build_markers (S (S start)) ds'
  end.

(** The document once the table holds the payload's HTML. *)
Definition rendered (p : Payload) (w : World) : list Element :=
  render w (elements w) (locos_table p).

(** A row is selected and the new table has no element of that id: the
    assignment of home.js:128 is on null. *)
Definition selected_row_missing (p : Payload) (w : World) : bool :=
  match curr_loco w with
  | Some id =>
      truthy_str (Some id) && negb (is_object (getElementById id (rendered p w)))
  | None => false
  end.

(** The state after each step of a refresh with the payload [p]. *)
Definition after_diff (p : Payload) (w : World) : World :=
  with_needs_txtshuffle
    (changed_ids (shuffle_data p) (shuffleable (elements w))) w.

Definition after_table (p : Payload) (w : World) : World :=
  with_document (locos_table p)
    (match curr_loco w with
     | Some id =>
         if truthy_str (Some id)
         then set_className id "clicked" (rendered p w)
         else rendered p w
     | None => rendered p w
     end) w.

(** The cells that get the shuffle effect: the shuffleable cells of the
    document whose id was noted. *)
Definition shuffled_ids (w : World) : list string :=
  el_id <$> filter (λ e, el_id e ∈ needs_txtshuffle w) (shuffleable (elements w)).

Definition after_shuffle (w : World) : World :=
  with_trace (trace w ++ (EShuffle <$> shuffled_ids w)) w.

Definition after_removal (w : World) : World :=
  with_curr_polylines []
    (with_status_map_markers []
       (with_trace (trace w ++ (EMarkerOff <$> status_map_markers w)
                            ++ (EPolylineOff <$> curr_polylines w))
          (with_on_map (on_map w ∖ marker_ids w ∖ polyline_ids w) w))).

Definition after_polylines (paths : list (list LatLng)) (w : World) : World :=
  with_curr_polylines (curr_polylines w ++ build_polylines (next_id w) paths)
    (with_on_map (list_to_set (pl_id <$> build_polylines (next_id w) paths) ∪ on_map w)
       (with_next_id (next_id w + length paths) w)).

Definition after_markers (ds : list MarkerDesc) (w : World) : World :=
  with_status_map_markers (status_map_markers w ++ build_markers (next_id w) ds)
    (with_on_map (list_to_set (mk_id <$> build_markers (next_id w) ds) ∪ on_map w)
       (with_next_id (next_id w + 2 * length ds) w)).

Definition after_log (w : World) : World :=
  with_trace (trace w ++ [EConsoleLog "Home Refreshed - client side took: "]) w.

(** The events of a reopened popup: none when no popup is persisted. *)
Definition reopened (w : World) : list Event :=
  match infobox (persist_infobox w) with
  | Some iw => [EInfoOpen iw (marker (persist_infobox w))]
  | None => []
  end.

(** The state a refresh with the payload [p] leaves when it completes. *)
Definition refreshed (p : Payload) (w : World) : World :=
  after_log
    (exec open
       (after_markers (markers (status_map p))
          (after_polylines (loco_connlines p)
             (after_removal
                (after_shuffle (after_table p (after_diff p w))))))).

(** ** One popup at a time *)

(** [m] keeps the property [P] of the state, whether it returns or throws. *)
Definition keeps (P : World → Prop) {A} (m : M A) : Prop :=
  ∀ w, P w → P (exec m w).

(** What the map's bookkeeping reads of the state. *)
Definition core (w : World)
  : list Marker * list Polyline * PersistInfobox * gset nat * nat :=
  (status_map_markers w, curr_polylines w, persist_infobox w, on_map w, next_id w).

(** The map is in order: nothing is on it but the markers and polylines
    the script holds and the persisted info window; the info windows of the
    markers are distinct objects, distinct from every marker and polyline,
    and so is the persisted one; and every identity in use lies below the
    next one to be given. *)
Definition tidy (w : World) : Prop :=
  on_map w ⊆ marker_ids w ∪ polyline_ids w ∪ popup_ids w ∧
  listener_ids w ## marker_ids w ∪ polyline_ids w ∧
  popup_ids w ## marker_ids w ∪ polyline_ids w ∧
  NoDup ((λ m, iw_id (listener_infobox m)) <$> status_map_markers w) ∧
  (∀ id, id ∈ marker_ids w ∪ polyline_ids w ∪ listener_ids w ∪ popup_ids w →
         id < next_id w).


(** A page with an empty map. *)
Definition empty_map (w : World) : Prop :=
  status_map_markers w = [] ∧ curr_polylines w = [] ∧
  persist_infobox w = constructor None None ∧ on_map w = ∅.

(** ** More sample data *)

Definition payload_base3 : Payload :=
  {| shuffle_data := {[ "1001-speed" := "45" ]};
     locos_table := "<tr id='Loco 1001'></tr>";
     loco_connlines := [[origin; origin]];
     status_map := {| markers :=
       [{| d_lat := QArith_base.Qmake 0 1; d_lng := QArith_base.Qmake 0 1;
           d_icon := "base.png"; d_title := "Base 3";
           d_infobox := "Base 3: up" |}] |} |}.

(** A page with nothing drawn yet. *)
Definition page_blank : World :=
  {| curr_loco := None; curr_polylines := [];
     persist_infobox := constructor None None;
     status_map_markers := [];
     needs_txtshuffle := [];
     locos_table_html := "";
     elements := [cell_speed];
     render := λ els _, els;
     on_map := ∅; next_id := 0; trace := [] |}.

(** The marker that a refresh of [page_blank] with [payload_base3] draws:
    the polyline takes the identity 0, the marker 1, its info window 2. *)
Definition mk_drawn : Marker :=
  {| mk_id := 1; title := "Base 3"; position := origin; icon := "base.png";
     listener_infobox := {| iw_id := 2; content := "Base 3: up" |} |}.

(** The calls that closing the persisted popup makes. *)
Definition closed (w : World) : list Event :=
  match infobox (persist_infobox w) with
  | Some iw => [EInfoClose iw]
  | None => []
  end.

(** ** The refresh timer (home.js:247-258, 273-277, 283-285)

    The timer lives beside the page's state: the handle the script keeps
    ([on_interval], home.js:26), the interval timers the browser runs, and
    the readout of the period.  Each firing of a running timer is a [Tick]
    of the page.  The refresh slider gives a whole number of seconds. *)

(** The content of #refresh-val: the script writes either
    ['&nbsp;' + ms / 1000 + 's'] (home.js:254-255) or
    ['&nbsp;' + value + 's'] with the slider's value (home.js:285); the
    number is kept as the script computes it. *)
Inductive Readout :=
| Seconds_of_ms (ms : N)
| Slider_value (secs : N).

Record Scheduler := {
  on_interval : option nat;      (* home.js:26 *)
  intervals : gmap nat N;        (* running timers: handle to period in ms *)
  next_handle : nat;             (* the handle the next setInterval returns *)
  refresh_val : option Readout   (* #refresh-val, [None] as the page came *)
}.

(** [setInterval(callback, ms)]: a new running timer; its handle is returned. *)
Definition setInterval (ms : N) (s : Scheduler) : nat * Scheduler :=
  (next_handle s,
   {| on_interval := on_interval s;
      intervals := <[next_handle s := ms]> (intervals s);
      next_handle := S (next_handle s);
      refresh_val := refresh_val s |}).

(** [clearInterval(handle)]: stops that timer; nothing happens on null or on
    a handle that is not running. *)
Definition clearInterval (handle : option nat) (s : Scheduler) : Scheduler :=
  match handle with
  | Some h =>
      {| on_interval := on_interval s;
         intervals := delete h (intervals s);
         next_handle := next_handle s;
         refresh_val := refresh_val s |}
  | None => s
  end.

(** [_async_interval(refresh_interval)] (home.js:248-258) *)
Definition _async_interval (refresh_interval : N) (s : Scheduler) : nat * Scheduler :=
  let '(setinterval, s1) := setInterval refresh_interval s in
  (setinterval,
   {| on_interval := on_interval s1;
      intervals := intervals s1;
      next_handle := next_handle s1;
      refresh_val := Some (Seconds_of_ms refresh_interval) |}).

(** [on_interval = handle] *)
Definition set_on_interval (handle : nat) (s : Scheduler) : Scheduler :=
  {| on_interval := Some handle;
     intervals := intervals s;
     next_handle := next_handle s;
     refresh_val := refresh_val s |}.

(** [refresh_slider.oninput] (home.js:273-277), the slider at [value]. *)
Definition refresh_slider_oninput (value : N) (s : Scheduler) : Scheduler :=
  let new_val := (value * 1000)%N in
  let s1 := clearInterval (on_interval s) s in
  let '(h, s2) := _async_interval new_val s1 in
  set_on_interval h s2.

(** The timer's part of [home_start_async] (home.js:283 and 285), the
    slider at [value]. *)
Definition home_start_async_timer (value : N) (s : Scheduler) : Scheduler :=
  let '(h, s1) := _async_interval (value * 1000)%N s in
  let s2 := set_on_interval h s1 in
  {| on_interval := on_interval s2;
     intervals := intervals s2;
     next_handle := next_handle s2;
     refresh_val := Some (Slider_value value) |}.

(** The scheduler as the script is loaded: no timer yet (home.js:26). *)
Definition idle (s : Scheduler) : Prop :=
  on_interval s = None ∧ intervals s = ∅.

(** The slider moved through [values], one input event each. *)
Definition slide (values : list N) (s : Scheduler) : Scheduler :=
  foldl (λ s v, refresh_slider_oninput v s) s values.

(** One timer runs, of period [ms]: the one the script holds the handle
    of. *)
Definition one_timer (ms : N) (s : Scheduler) : Prop :=
  ∃ h, on_interval s = Some h ∧ intervals s = {[h := ms]}.

Definition scheduler0 : Scheduler :=
  {| on_interval := None; intervals := ∅; next_handle := 1; refresh_val := None |}.

(** ** The model on the sample pages *)

Example includes_Loco_1001 : includes "Loco" "Loco 1001" = true.
Proof. reflexivity. Qed.

Example includes_Base_3 : includes "Loco" "Base 3" = false.
Proof. reflexivity. Qed.

Example includes_is_case_sensitive : includes "Loco" "loco 7" = false.
Proof. reflexivity. Qed.

(** A click on the marker of Base 3 opens its popup and persists it. *)
Example click_opens_popup :
  exec (marker_click mk_base3) page0
  = with_trace [EInfoOpen iw_base3 (Some mk_base3)]
      (page_with_popup iw_base3 mk_base3).
Proof. by vm_compute. Qed.

(** A second click on the same marker closes it again. *)
Example click_again_closes_popup :
  persist_infobox (exec (marker_click mk_base3) (page_with_popup iw_base3 mk_base3))
    = constructor None None ∧
  trace (exec (marker_click mk_base3) (page_with_popup iw_base3 mk_base3))
    = [EInfoClose iw_base3].
Proof. by vm_compute. Qed.

(** An answer with one marker and a changed cell: the cell is noted, the
    two old markers leave the map, the new one is drawn with fresh
    identities, and the persisted popup is opened again. *)
Example refresh_redraws :
  let data := DJson {| shuffle_data := {[ "1001-speed" := "45" ]};
                       locos_table := "<tr id='Loco 1001'></tr>";
                       loco_connlines := [];
                       status_map := {| markers :=
                         [{| d_lat := QArith_base.Qmake 0 1;
                             d_lng := QArith_base.Qmake 0 1;
                             d_icon := "base.png"; d_title := "Base 3";
                             d_infobox := "Base 3: up" |}] |} |} in
  let w := exec (success data) (page_with_popup iw_base3 mk_base3) in
  result (success data) (page_with_popup iw_base3 mk_base3) = Ok tt ∧
  needs_txtshuffle w = ["1001-speed"] ∧
  status_map_markers w
    = [{| mk_id := 4; title := "Base 3"; position := origin; icon := "base.png";
          listener_infobox := {| iw_id := 5; content := "Base 3: up" |} |}] ∧
  persist_infobox w = {| infobox := Some iw_base3; marker := Some mk_base3 |} ∧
  trace w = [EShuffle "1001-speed"; EMarkerOff mk_base3; EMarkerOff mk_loco1002;
             EInfoOpen iw_base3 (Some mk_base3);
             EConsoleLog "Home Refreshed - client side took: "].
Proof. by vm_compute. Qed.

(** With a row selected that the new table does not hold, the handler
    throws at home.js:128 and the map is not redrawn. *)
Example refresh_throws_without_the_row :
  result (success (DJson {| shuffle_data := ∅; locos_table := "";
                            loco_connlines := [];
                            status_map := {| markers := [] |} |}))
    (with_curr_loco (Some "Loco 1001") page0) = TypeError.
Proof. by vm_compute. Qed.

(** ** Substrings *)

Lemma append_String (a : Ascii.ascii) (s t : string) :
  String a s +:+ t = String a (s +:+ t).
Proof. reflexivity. Qed.

Lemma append_Empty (t : string) : EmptyString +:+ t = t.
Proof. reflexivity. Qed.

Lemma prefix_spec (s1 s2 : string) :
  String.prefix s1 s2 = true ↔ ∃ post, s2 = s1 +:+ post.
Proof.
  revert s2. induction s1 as [|a s1 IH]; intros s2; simpl.
  - split; [intros _; by exists s2 | by destruct s2].
  - destruct s2 as [|b s2]; simpl.
    + split; [done | by intros [post ?]].
    + destruct (Ascii.ascii_dec a b) as [->|Hab].
      * rewrite IH. split; intros [post Hp]; exists post;
          rewrite append_String in *; congruence.
      * split; [done | intros [post Hp]; rewrite append_String in Hp; congruence].
Qed.

Lemma includes_unfold (sub s : string) :
  includes sub s =
  String.prefix sub s ||
  match s with EmptyString => false | String _ s' => includes sub s' end.
Proof. by destruct s. Qed.

Lemma includes_spec (sub s : string) :
  includes sub s = true ↔ contains sub s.
Proof.
  split.
  - induction s as [|a s IH]; rewrite includes_unfold; intros H;
      apply orb_true_iff in H as [H|H]; try done.
    + apply prefix_spec in H as [post ->]. by exists EmptyString, post.
    + apply prefix_spec in H as [post ->]. by exists EmptyString, post.
    + destruct (IH H) as (pre & post & ->). by exists (String a pre), post.
  - intros (pre & post & ->). induction pre as [|a pre IH].
    + rewrite includes_unfold. apply orb_true_iff. left.
      apply prefix_spec. by exists post.
    + rewrite append_String, includes_unfold. apply orb_true_iff. by right.
Qed.

(** ** Reasoning about handlers *)

Section frame.
Context {X : Type} (f : World → X).

Lemma preserves_ret {A} (a : A) : preserves f (mret a).
Proof. by intros w. Qed.

Lemma preserves_throw {A} : preserves f (@throw A).
Proof. by intros w. Qed.

Lemma preserves_gets {A} (g : World → A) : preserves f (gets g).
Proof. by intros w. Qed.

Lemma preserves_deref {A} (o : option A) : preserves f (deref o).
Proof. by destruct o. Qed.

Lemma preserves_modify (g : World → World) :
  (∀ w, f (g w) = f w) → preserves f (modify g).
Proof. intros Hg w. apply Hg. Qed.

Lemma preserves_bind {A B} (m : M A) (k : A → M B) :
  preserves f m → (∀ a, preserves f (k a)) → preserves f (m ≫= k).
Proof.
  intros Hm Hk w. specialize (Hm w). revert Hm.
  unfold exec, mbind, M_bind. destruct (m w) as [[a|] w']; simpl; [|done].
  intros <-. apply Hk.
Qed.

Lemma preserves_if {A} (b : bool) (m1 m2 : M A) :
  preserves f m1 → preserves f m2 → preserves f (if b then m1 else m2).
Proof. by destruct b. Qed.

Lemma preserves_for_each {A} (g : A → M unit) (l : list A) :
  (∀ a, preserves f (g a)) → preserves f (for_each g l).
Proof.
  intros Hg. induction l as [|a l IH]; simpl.
  - apply preserves_ret.
  - apply preserves_bind; auto.
Qed.
End frame.

Create HintDb handlers.
#[global] Hint Unfold emit InfoWindow_open InfoWindow_close InfoWindow_getMap
  set clear is_set open close is_for_device is_loco
  _get_content_async error note_if_changed compute_needs_txtshuffle
  refresh_locos_table shuffle_changed remove_markers_and_polylines new_object
  create_polylines create_markers success marker_click home_select_loco
  : handlers.

(** Unfolds a handler down to the primitive actions and closes the frame
    goal when every [modify] on the way leaves the component alone. *)
Ltac frame :=
  repeat first
    [ apply preserves_ret | apply preserves_throw | apply preserves_gets
    | apply preserves_deref
    | apply preserves_bind; [|intros ?]
    | apply preserves_if
    | apply preserves_for_each; intros ?
    | apply preserves_modify; intros []; reflexivity
    | match goal with |- preserves _ (match ?o with _ => _ end) => destruct o end
    | progress autounfold with handlers
    | progress cbv zeta ].

(** ** What each method of the class does to the state *)

Lemma open_None (w : World) :
  infobox (persist_infobox w) = None → open w = (Ok tt, w).
Proof.
  intros H. unfold open, gets, mbind, M_bind. by rewrite H.
Qed.

Lemma open_Some (w : World) (iw : InfoWindow) :
  infobox (persist_infobox w) = Some iw →
  open w =
  (Ok tt, with_trace (trace w ++ [EInfoOpen iw (marker (persist_infobox w))])
            (with_on_map ({[iw_id iw]} ∪ on_map w) w)).
Proof.
  intros H. unfold open, gets, mbind, M_bind. rewrite H. by destruct w.
Qed.

Lemma close_None (w : World) :
  infobox (persist_infobox w) = None → close w = (Ok tt, w).
Proof.
  intros H. unfold close, gets, mbind, M_bind. by rewrite H.
Qed.

Lemma close_Some (w : World) (iw : InfoWindow) :
  infobox (persist_infobox w) = Some iw →
  close w =
  (Ok tt, with_persist_infobox (constructor None None)
            (with_trace (trace w ++ [EInfoClose iw])
               (with_on_map (on_map w ∖ {[iw_id iw]}) w))).
Proof.
  intros H. unfold close, gets, mbind, M_bind. rewrite H. by destruct w.
Qed.

Lemma close_infobox (w : World) :
  infobox (persist_infobox (exec close w)) = None.
Proof.
  unfold exec. destruct (infobox (persist_infobox w)) as [iw|] eqn:H.
  - by rewrite (close_Some w iw H).
  - by rewrite (close_None w H).
Qed.

Lemma close_paired (w : World) :
  paired (persist_infobox w) → paired (persist_infobox (exec close w)).
Proof.
  intros Hp. unfold exec. destruct (infobox (persist_infobox w)) as [iw|] eqn:H.
  - by rewrite (close_Some w iw H).
  - by rewrite (close_None w H).
Qed.

Lemma open_persist_infobox : preserves persist_infobox open.
Proof. frame. Qed.

(** C3. [close] is idempotent on every state: a second [close] right after
    the first returns without touching anything, so closing twice leaves the
    state (fields, map and trace of calls) that closing once leaves, and
    that state references no popup.  In particular [close] on a state that
    references no popup changes nothing, and on a state whose two fields
    are paired it leaves both fields null. *)
Theorem close_idempotent (w : World) :
  (close ;; close) w = close w ∧
  exec close (exec close w) = exec close w ∧
  infobox (persist_infobox (exec close w)) = None ∧
  (infobox (persist_infobox w) = None → close w = (Ok tt, w)) ∧
  (paired (persist_infobox w) →
   persist_infobox (exec close w) = constructor None None).
Proof.
  assert (Hagain : close (exec close w) = (Ok tt, exec close w))
    by apply close_None, close_infobox.
  split_and!.
  - unfold mbind, M_bind. unfold exec in Hagain.
    destruct (close w) as [[[]|] w'] eqn:Hc; simpl in *; [done|].
    destruct (infobox (persist_infobox w)) as [iw|] eqn:H.
    + by rewrite (close_Some w iw H) in Hc.
    + by rewrite (close_None w H) in Hc.
  - unfold exec at 1. by rewrite Hagain.
  - apply close_infobox.
  - apply close_None.
  - intros Hp. unfold exec.
    destruct (persist_infobox w) as [[iw|] [m|]] eqn:E; try done.
    + rewrite (close_Some w iw); [done | by rewrite E].
    + rewrite (close_None w); [done | by rewrite E].
Qed.

Lemma close_idempotent_witness :
  exec close (exec close (page_with_popup iw_base3 mk_base3))
    = exec close (page_with_popup iw_base3 mk_base3) ∧
  persist_infobox (exec close (page_with_popup iw_base3 mk_base3))
    = constructor None None ∧
  close page0 = (Ok tt, page0).
Proof.
  destruct (close_idempotent (page_with_popup iw_base3 mk_base3))
    as (_ & H2 & _ & _ & H5).
  destruct (close_idempotent page0) as (_ & _ & _ & H4 & _).
  split_and!; [exact H2 | apply H5; reflexivity | apply H4; reflexivity].
Defined.

(** C7, as stated, fails: after [set] and [clear] the query on the title of
    the marker just dropped returns null, which is not the boolean false
    ([null == false] and [null === false] are both false). *)
Lemma cleared_query_returns_null :
  result (is_for_device (title mk_base3))
    (exec clear (exec (set (Some iw_base3) (Some mk_base3)) page0))
  ≠ Ok (VBool false).
Proof. by vm_compute. Qed.

(** C7, amended.  For every infobox [i], marker [m] (null included) and name
    [n] (the title of [m] included), after [set(i, m)] and then [clear()],
    [is_for_device(n)] returns null: a falsy value, never true. *)
Theorem is_for_device_after_clear
    (i : option InfoWindow) (m : option Marker) (n : string) (w : World) :
  ∃ v, result (is_for_device n) (exec clear (exec (set i m) w)) = Ok v ∧
       v = VNull ∧ truthy v = false.
Proof. by exists VNull. Qed.

Lemma returns_ret {A} (a : A) : returns (mret a).
Proof. intros w. by exists a. Qed.

Lemma returns_modify (g : World → World) : returns (modify g).
Proof. intros w. by exists tt. Qed.

Lemma returns_close : returns close.
Proof.
  intros w. exists tt. unfold result.
  destruct (infobox (persist_infobox w)) as [iw|] eqn:H.
  - by rewrite (close_Some w iw H).
  - by rewrite (close_None w H).
Qed.

Lemma returns_open : returns open.
Proof.
  intros w. exists tt. unfold result.
  destruct (infobox (persist_infobox w)) as [iw|] eqn:H.
  - by rewrite (open_Some w iw H).
  - by rewrite (open_None w H).
Qed.

Lemma is_for_device_result (n : string) (w : World) :
  result (is_for_device n) w =
  Ok match marker (persist_infobox w) with
     | Some m => VBool (String.eqb (title m) n)
     | None => VNull
     end.
Proof.
  unfold result, is_for_device, gets, mbind, M_bind.
  by destruct (marker (persist_infobox w)).
Qed.

Lemma is_loco_result (w : World) :
  result is_loco w =
  Ok match marker (persist_infobox w) with
     | Some m => VBool (includes "Loco" (title m))
     | None => VNull
     end.
Proof.
  unfold result, is_loco, gets, mbind, M_bind.
  by destruct (marker (persist_infobox w)).
Qed.

(** C8. No method of the class has an error path: each returns on every
    state and for every argument (the guards keep every member access off
    null).  On a state that references no popup, [open] and [close] return
    with the state as it was: fields, map and the trace of calls, so no
    info window was opened or closed. *)
Theorem PersistInfobox_total :
  ((∀ i m, returns (set i m)) ∧ returns clear ∧ returns is_set ∧
   returns open ∧ returns close ∧
   (∀ n, returns (is_for_device n)) ∧ returns is_loco) ∧
  (∀ w, infobox (persist_infobox w) = None →
        open w = (Ok tt, w) ∧ close w = (Ok tt, w)).
Proof.
  split; [split_and!|].
  - intros i m. apply returns_modify.
  - apply returns_modify.
  - intros w. by eexists.
  - apply returns_open.
  - apply returns_close.
  - intros n w. rewrite is_for_device_result. by eexists.
  - intros w. rewrite is_loco_result. by eexists.
  - intros w H. split; [by apply open_None | by apply close_None].
Qed.

Lemma PersistInfobox_total_witness :
  open page0 = (Ok tt, page0) ∧ close page0 = (Ok tt, page0).
Proof.
  destruct PersistInfobox_total as [_ H]. apply (H page0). reflexivity.
Defined.

(** C9, as stated, fails: [is_loco] takes no label.  With the popup of the
    marker titled "Base 3" persisted, the title contains the label "Base",
    yet the query does not return true. *)
Lemma is_loco_ignores_the_label :
  ¬ is_of_kind_as_specified "Base" (page_with_popup iw_base3 mk_base3).
Proof.
  intros [_ H].
  assert (Hf : result is_loco (page_with_popup iw_base3 mk_base3) = Ok (VBool true)).
  { apply H. exists iw_base3, mk_base3. split; [reflexivity|].
    apply includes_spec. reflexivity. }
  by vm_compute in Hf.
Qed.

(** C9, amended.  The kind query has one fixed label: [is_loco()] returns
    true if and only if a marker is held and its title contains "Loco". *)
Theorem is_loco_spec (w : World) :
  result is_loco w = Ok (VBool true) ↔
  ∃ m, marker (persist_infobox w) = Some m ∧ contains "Loco" (title m).
Proof.
  rewrite is_loco_result. destruct (marker (persist_infobox w)) as [m|].
  - split.
    + intros [= H]. exists m. split; [done|]. by apply includes_spec.
    + intros (m' & [= <-] & H). apply includes_spec in H. by rewrite H.
  - split; [done | by intros (m' & ? & _)].
Qed.

(** C10. [is_set()] returns [!this.infobox]: true exactly when no infobox
    is referenced, false exactly when one is.  It returns true on the
    empty state and false after [set(i, m)] with an infobox [i]. *)
Theorem is_set_is_negated (w : World) :
  (result is_set w = Ok (VBool true) ↔ infobox (persist_infobox w) = None) ∧
  (result is_set w = Ok (VBool false) ↔ is_Some (infobox (persist_infobox w))) ∧
  result is_set (with_persist_infobox (constructor None None) w) = Ok (VBool true) ∧
  (∀ i m, result is_set (exec (set (Some i) m) w) = Ok (VBool false)).
Proof.
  unfold result, is_set, gets, mbind, M_bind, mret, M_ret; simpl.
  split_and!; try done.
  - destruct (infobox (persist_infobox w)); simpl; split; done.
  - destruct (infobox (persist_infobox w)); simpl; split;
      first [done | by eexists | by intros [? ?]].
Qed.

(** ** What the click handlers do to the state *)

Lemma home_select_loco_exec (n : string) (w : World) :
  exec (home_select_loco n) w =
  if loose_eq (curr_loco w) n then requested (with_curr_loco None w)
  else if other_loco_popup n w
       then requested (exec close (with_curr_loco (Some n) w))
       else requested (with_curr_loco (Some n) w).
Proof.
  unfold home_select_loco, other_loco_popup, is_loco, is_for_device, close,
    _get_content_async, InfoWindow_close, clear, emit, requested, exec,
    gets, modify, deref, mbind, M_bind, mret, M_ret.
  destruct w as [c ps [[iw|] [m|]] ms nd h els r om nx tr]; simpl;
    destruct (loose_eq c n); simpl; try reflexivity;
    destruct (includes "Loco" (title m)); simpl; try reflexivity;
    destruct (String.eqb (title m) n); reflexivity.
Qed.

Lemma home_select_loco_returns (n : string) : returns (home_select_loco n).
Proof.
  intros w. exists tt.
  unfold home_select_loco, is_loco, is_for_device, close,
    _get_content_async, InfoWindow_close, clear, emit, result,
    gets, modify, deref, mbind, M_bind, mret, M_ret.
  destruct w as [c ps [[iw|] [m|]] ms nd h els r om nx tr]; simpl;
    destruct (loose_eq c n); simpl; try reflexivity;
    destruct (includes "Loco" (title m)); simpl; try reflexivity;
    destruct (String.eqb (title m) n); reflexivity.
Qed.

Lemma marker_click_exec (m : Marker) (w : World) :
  exec (marker_click m) w =
  if bool_decide (iw_id (listener_infobox m) ∈ on_map w)
  then exec close w
  else exec open (exec (set (Some (listener_infobox m)) (Some m)) (exec close w)).
Proof.
  unfold marker_click, InfoWindow_getMap, exec, gets, mbind, M_bind.
  destruct (bool_decide _); [done|].
  destruct (returns_close w) as [[] Hc]. unfold result in Hc.
  destruct (close w) as [o w1]; simpl in *. by subst o.
Qed.

Lemma close_curr_loco : preserves curr_loco close.
Proof. frame. Qed.

Lemma home_select_loco_curr_loco (n : string) (w : World) :
  curr_loco (exec (home_select_loco n) w) =
  if loose_eq (curr_loco w) n then None else Some n.
Proof.
  rewrite home_select_loco_exec.
  destruct (loose_eq (curr_loco w) n); [done|].
  destruct (other_loco_popup n w); [|done].
  unfold requested. simpl. by rewrite close_curr_loco.
Qed.

Lemma home_select_loco_paired (n : string) (w : World) :
  paired (persist_infobox w) →
  paired (persist_infobox (exec (home_select_loco n) w)).
Proof.
  intros Hp. rewrite home_select_loco_exec.
  destruct (loose_eq (curr_loco w) n); [done|].
  destruct (other_loco_popup n w); [|done].
  unfold requested. simpl. by apply close_paired.
Qed.

Lemma marker_click_paired (m : Marker) (w : World) :
  paired (persist_infobox w) →
  paired (persist_infobox (exec (marker_click m) w)).
Proof.
  intros Hp. rewrite marker_click_exec. destruct (bool_decide _).
  - by apply close_paired.
  - by rewrite open_persist_infobox.
Qed.

(** ** What the refresh handlers leave alone *)

Lemma success_persist_infobox (data : Data) :
  preserves persist_infobox (success data).
Proof. frame. Qed.

Lemma success_curr_loco (data : Data) : preserves curr_loco (success data).
Proof. frame. Qed.

Lemma marker_click_curr_loco (m : Marker) : preserves curr_loco (marker_click m).
Proof. frame. Qed.

Lemma handler_paired (i : Input) (w : World) :
  paired (persist_infobox w) →
  paired (persist_infobox (exec (handler i) w)).
Proof.
  intros Hp. destruct i as [n|m| |data|st]; simpl.
  - by apply home_select_loco_paired.
  - by apply marker_click_paired.
  - done.
  - by rewrite success_persist_infobox.
  - unfold error. by destruct (String.eqb st "timeout").
Qed.

Lemma handler_curr_loco (i : Input) :
  match i with RowClick _ => False | _ => True end →
  preserves curr_loco (handler i).
Proof.
  destruct i as [n|m| |data|st]; simpl; intros Hi; try done.
  - apply marker_click_curr_loco.
  - apply success_curr_loco.
  - unfold error. frame.
Qed.

Lemma run_curr_loco (inputs : list Input) (w : World) :
  no_row_click inputs → curr_loco (run inputs w) = curr_loco w.
Proof.
  unfold run. intros H. revert w.
  induction H as [|i inputs Hi _ IH]; intros w; simpl; [done|].
  rewrite IH. by apply handler_curr_loco.
Qed.

(** ** Properties of the class on the page *)

(** C2, as stated, fails: [set] and the constructor store the two arguments
    they are handed, nothing more.  From the empty state, [set(i, null)]
    leaves an infobox without a marker, and [new PersistInfobox(i)] (the
    marker defaulted) builds such a state. *)
Lemma set_does_not_pair_its_arguments :
  paired (persist_infobox page0) ∧
  ¬ paired (persist_infobox (exec (set (Some iw_base3) None) page0)) ∧
  ¬ paired (constructor (Some iw_base3) None).
Proof. by vm_compute. Qed.

(** C2, amended.  [clear], [close] and [open] preserve the pairing of the
    two fields on every state; the constructor and [set] leave the fields
    paired when their two arguments are both objects or both null; and the
    page only calls them so (the constructor without arguments, [set] with
    a marker and its info window), so in every state the page reaches the
    two fields are set together or null together.  With one argument an
    object and the other null, the constructor and [set] leave the fields
    unpaired. *)
Theorem pairing_invariant :
  (∀ i m, paired (constructor i m) ↔ is_object i = is_object m) ∧
  (∀ w i m, paired (persist_infobox (exec (set i m) w)) ↔
            is_object i = is_object m) ∧
  (∀ w, paired (persist_infobox (exec clear w))) ∧
  (∀ w, paired (persist_infobox w) → paired (persist_infobox (exec close w))) ∧
  (∀ w, paired (persist_infobox w) → paired (persist_infobox (exec open w))) ∧
  (∀ w, reachable w → paired (persist_infobox w)).
Proof.
  split_and!; try done.
  - apply close_paired.
  - intros w Hp. by rewrite open_persist_infobox.
  - induction 1 as [w (_ & _ & -> & _)|w i _ IH _]; [done|].
    by apply handler_paired.
Qed.

Lemma pairing_invariant_witness :
  paired (persist_infobox (exec (set (Some iw_base3) (Some mk_base3)) page0)) ∧
  paired (persist_infobox (exec close (page_with_popup iw_base3 mk_base3))) ∧
  paired (persist_infobox
            (run [MarkerClick mk_base3; Response (DText "error");
                  RowClick "Loco 1001"] page0)).
Proof.
  destruct pairing_invariant as (_ & Hset & _ & Hclose & _ & Hreach).
  split_and!.
  - apply (proj2 (Hset _ _ _)). reflexivity.
  - apply Hclose. reflexivity.
  - apply Hreach. unfold run. cbn [foldl].
    apply (reach_step _ (RowClick "Loco 1001")); [|discriminate].
    apply (reach_step _ (Response (DText "error"))); [|discriminate].
    apply (reach_step _ (MarkerClick mk_base3)).
    + apply reach_loaded. by repeat split.
    + intros m [= <-]. apply list_elem_of_here.
Defined.

Lemma loose_eq_false (c : option string) (n : string) :
  c ≠ Some n → loose_eq c n = false.
Proof.
  destruct c as [c|]; simpl; [|done].
  intros H. apply String.eqb_neq. congruence.
Qed.

(** C1, as stated, fails: with the popup of the marker titled "Base 3"
    persisted and shown, selecting "Loco 1001" issues the refresh and
    nothing else: the popup stays referenced and on the map, and the trace
    holds no close. *)
Lemma base3_popup_survives_selection :
  persist_infobox
    (exec (home_select_loco "Loco 1001") (page_with_popup iw_base3 mk_base3))
    = {| infobox := Some iw_base3; marker := Some mk_base3 |} ∧
  on_map (exec (home_select_loco "Loco 1001") (page_with_popup iw_base3 mk_base3))
    = on_map (page_with_popup iw_base3 mk_base3) ∧
  trace (exec (home_select_loco "Loco 1001") (page_with_popup iw_base3 mk_base3))
    = [EAjax (Some "Loco 1001")].
Proof. by vm_compute. Qed.

(** C1, amended.  In a state whose persisted popup is anchored to a marker
    [m]: when the title of [m] contains "Loco" and is not the name being
    selected, and that name is not the current selection, [home_select_loco]
    closes the popup (the info window leaves the map and both references are
    cleared) and then issues the refresh, the close coming first in the
    trace.  When the title of [m] does not contain "Loco" (a base marker
    such as "Base 3"), the popup stays referenced and shown and only the
    refresh is issued. *)
Theorem select_closes_other_loco_popup
    (n : string) (w : World) (iw : InfoWindow) (m : Marker) :
  persist_infobox w = {| infobox := Some iw; marker := Some m |} →
  (curr_loco w ≠ Some n → contains "Loco" (title m) → title m ≠ n →
   exec (home_select_loco n) w =
   with_trace (trace w ++ [EInfoClose iw; EAjax (Some n)])
     (with_persist_infobox (constructor None None)
        (with_on_map (on_map w ∖ {[iw_id iw]}) (with_curr_loco (Some n) w)))) ∧
  (¬ contains "Loco" (title m) →
   persist_infobox (exec (home_select_loco n) w) = persist_infobox w ∧
   on_map (exec (home_select_loco n) w) = on_map w ∧
   ∃ selection, trace (exec (home_select_loco n) w) = trace w ++ [EAjax selection]).
Proof.
  intros Hpi. rewrite home_select_loco_exec. unfold other_loco_popup.
  rewrite Hpi. simpl. split.
  - intros Hsel Hloco Hne. rewrite (loose_eq_false _ _ Hsel).
    apply includes_spec in Hloco. rewrite Hloco.
    apply String.eqb_neq in Hne. rewrite Hne. simpl.
    unfold exec. rewrite (close_Some _ iw) by (simpl; by rewrite Hpi).
    destruct w; simpl. unfold requested; simpl. by rewrite <- app_assoc.
  - intros Hbase. destruct (includes "Loco" (title m)) eqn:E.
    { exfalso. apply Hbase. by apply includes_spec. }
    simpl. destruct (loose_eq (curr_loco w) n); simpl; rewrite Hpi; eauto.
Qed.

Lemma select_closes_other_loco_popup_witness :
  exec (home_select_loco "Loco 1001") (page_with_popup iw_loco1002 mk_loco1002)
  = with_trace [EInfoClose iw_loco1002; EAjax (Some "Loco 1001")]
      (with_persist_infobox (constructor None None)
         (with_on_map (on_map (page_with_popup iw_loco1002 mk_loco1002)
                         ∖ {[iw_id iw_loco1002]})
            (with_curr_loco (Some "Loco 1001")
               (page_with_popup iw_loco1002 mk_loco1002)))).
Proof.
  apply (select_closes_other_loco_popup "Loco 1001"
           (page_with_popup iw_loco1002 mk_loco1002) iw_loco1002 mk_loco1002).
  - reflexivity.
  - discriminate.
  - apply includes_spec. reflexivity.
  - discriminate.
Defined.

(** C6. For every name [n] and every state whose selection is not [n], the
    first [home_select_loco(n)] sets the selection to [n] and the second
    clears it to null; and so it stays whatever the page handles in between
    that is not a click on a row (ticks, answers, failures, marker
    clicks). *)
Theorem select_twice_clears (n : string) (w : World) :
  curr_loco w ≠ Some n →
  curr_loco (exec (home_select_loco n) w) = Some n ∧
  curr_loco (exec (home_select_loco n) (exec (home_select_loco n) w)) = None ∧
  (∀ inputs, no_row_click inputs →
     curr_loco (exec (home_select_loco n)
                  (run inputs (exec (home_select_loco n) w))) = None).
Proof.
  intros Hsel.
  assert (H1 : curr_loco (exec (home_select_loco n) w) = Some n).
  { rewrite home_select_loco_curr_loco. by rewrite loose_eq_false. }
  assert (Hrefl : loose_eq (Some n) n = true) by apply String.eqb_refl.
  split_and!; [done| |].
  - rewrite home_select_loco_curr_loco, H1. by rewrite Hrefl.
  - intros inputs Hin.
    rewrite home_select_loco_curr_loco, (run_curr_loco _ _ Hin), H1.
    by rewrite Hrefl.
Qed.

Lemma select_twice_clears_witness :
  curr_loco (exec (home_select_loco "Loco 1001") page0) = Some "Loco 1001" ∧
  curr_loco (exec (home_select_loco "Loco 1001")
               (exec (home_select_loco "Loco 1001") page0)) = None.
Proof.
  destruct (select_twice_clears "Loco 1001" page0) as (H1 & H2 & _);
    [discriminate | by split].
Defined.

(** C4. When the body of the answer is the string "error", the success
    handler logs to the console and returns: the table's HTML, the
    document, the markers, the polylines, the selection, the persisted
    popup, what is on the map and the list of cells to shuffle are all as
    before the call. *)
Theorem error_sentinel_leaves_ui (w : World) :
  result (success (DText "error")) w = Ok tt ∧
  locos_table_html (exec (success (DText "error")) w) = locos_table_html w ∧
  elements (exec (success (DText "error")) w) = elements w ∧
  status_map_markers (exec (success (DText "error")) w) = status_map_markers w ∧
  curr_polylines (exec (success (DText "error")) w) = curr_polylines w ∧
  curr_loco (exec (success (DText "error")) w) = curr_loco w ∧
  persist_infobox (exec (success (DText "error")) w) = persist_infobox w ∧
  on_map (exec (success (DText "error")) w) = on_map w ∧
  needs_txtshuffle (exec (success (DText "error")) w) = needs_txtshuffle w ∧
  trace (exec (success (DText "error")) w) =
    trace w ++ [EConsoleError "Server available but failed returning content."].
Proof. by destruct w. Qed.

(** ** The refresh diff *)

Lemma loose_neq_spec (text : string) (new_value : option string) :
  loose_neq text new_value = true ↔ new_value ≠ Some text.
Proof.
  destruct new_value as [v|]; simpl; [|done].
  rewrite negb_true_iff, String.eqb_neq. split; congruence.
Qed.

Lemma changed_ids_cons (new : gmap string string) (e : Element) (cells : list Element) :
  changed_ids new (e :: cells) =
  if loose_neq (el_text e) (new !! el_id e)
  then el_id e :: changed_ids new cells
  else changed_ids new cells.
Proof.
  unfold changed_ids. rewrite filter_cons.
  destruct (loose_neq (el_text e) (new !! el_id e)) eqn:E.
  - apply loose_neq_spec in E. by rewrite decide_True.
  - rewrite decide_False; [done|].
    intros H. apply loose_neq_spec in H. congruence.
Qed.

Lemma changed_ids_same (new : gmap string string) (cells : list Element) :
  (∀ e, e ∈ cells → new !! el_id e = Some (el_text e)) →
  changed_ids new cells = [].
Proof.
  induction cells as [|e cells IH]; intros Hsame; [done|].
  rewrite changed_ids_cons.
  destruct (loose_neq (el_text e) (new !! el_id e)) eqn:E.
  - apply loose_neq_spec in E. destruct E. apply Hsame, list_elem_of_here.
  - apply IH. intros e' He'. by apply Hsame, list_elem_of_further.
Qed.

(** The loop of home.js:118-123 appends the changed ids, in the order of
    the cells, to what the list held. *)
Lemma for_each_note_if_changed (p : Payload) (cells : list Element) (w : World) :
  for_each (note_if_changed (DJson p)) cells w =
  (Ok tt, with_needs_txtshuffle
            (needs_txtshuffle w ++ changed_ids (shuffle_data p) cells) w).
Proof.
  revert w. induction cells as [|e cells IH]; intros w.
  - simpl. unfold changed_ids. simpl. rewrite app_nil_r. by destruct w.
  - rewrite changed_ids_cons. simpl.
    unfold mbind at 1, M_bind at 1.
    unfold note_if_changed, get_shuffle_data, deref, mbind, M_bind, mret, M_ret.
    destruct (loose_neq (el_text e) (shuffle_data p !! el_id e)); simpl.
    + rewrite IH. destruct w; simpl. by rewrite <- app_assoc.
    + apply IH.
Qed.

Lemma compute_needs_txtshuffle_run (p : Payload) (w : World) :
  compute_needs_txtshuffle (DJson p) w =
  (Ok tt, with_needs_txtshuffle
            (changed_ids (shuffle_data p) (shuffleable (elements w))) w).
Proof.
  unfold compute_needs_txtshuffle, modify, gets, mbind, M_bind.
  rewrite for_each_note_if_changed. by destruct w.
Qed.

Lemma after_diff_needs_txtshuffle (data : Data) :
  preserves needs_txtshuffle
    (refresh_locos_table data ;; shuffle_changed ;;
     remove_markers_and_polylines ;; create_polylines data ;;
     create_markers data ;; open ;;
     emit (EConsoleLog "Home Refreshed - client side took: ")).
Proof. frame. Qed.

(** C5. For every document and every payload, the refresh diff returns and
    leaves in [needs_txtshuffle] exactly the ids of the shuffleable cells
    whose new value (in [shuffle_data]) differs from the displayed text, in
    document order: an id is in the list if and only if it is the id of such
    a cell, and the list is a subsequence of the ids of the shuffleable
    cells.  When [shuffle_data] agrees with the displayed text on every
    shuffleable cell the list is empty.  The rest of the success handler
    does not touch the list. *)
Theorem refresh_diff_exact (p : Payload) (w : World) :
  result (compute_needs_txtshuffle (DJson p)) w = Ok tt ∧
  needs_txtshuffle (exec (compute_needs_txtshuffle (DJson p)) w)
    = changed_ids (shuffle_data p) (shuffleable (elements w)) ∧
  (∀ id, id ∈ needs_txtshuffle (exec (compute_needs_txtshuffle (DJson p)) w) ↔
         ∃ e, e ∈ shuffleable (elements w) ∧ el_id e = id ∧
              shuffle_data p !! id ≠ Some (el_text e)) ∧
  needs_txtshuffle (exec (compute_needs_txtshuffle (DJson p)) w)
    `sublist_of` (el_id <$> shuffleable (elements w)) ∧
  ((∀ e, e ∈ shuffleable (elements w) →
         shuffle_data p !! el_id e = Some (el_text e)) →
   needs_txtshuffle (exec (compute_needs_txtshuffle (DJson p)) w) = []) ∧
  needs_txtshuffle (exec (success (DJson p)) w)
    = changed_ids (shuffle_data p) (shuffleable (elements w)).
Proof.
  assert (Hneeds :
    needs_txtshuffle (exec (compute_needs_txtshuffle (DJson p)) w)
    = changed_ids (shuffle_data p) (shuffleable (elements w))).
  { unfold exec. rewrite compute_needs_txtshuffle_run. by destruct w. }
  split_and!.
  - unfold result. by rewrite compute_needs_txtshuffle_run.
  - exact Hneeds.
  - intros id. rewrite Hneeds. unfold changed_ids.
    rewrite list_elem_of_fmap. split.
    + intros (e & -> & He). apply list_elem_of_filter in He as [Hd He]. eauto.
    + intros (e & He & <- & Hd). exists e. split; [done|].
      by apply list_elem_of_filter.
  - rewrite Hneeds. unfold changed_ids. apply fmap_sublist, sublist_filter.
  - intros Hsame. rewrite Hneeds. by apply changed_ids_same.
  - change (success (DJson p)) with
      (compute_needs_txtshuffle (DJson p) ;;
       (refresh_locos_table (DJson p) ;; shuffle_changed ;;
        remove_markers_and_polylines ;; create_polylines (DJson p) ;;
        create_markers (DJson p) ;; open ;;
        emit (EConsoleLog "Home Refreshed - client side took: "))).
    unfold exec at 1, mbind at 1, M_bind at 1.
    rewrite compute_needs_txtshuffle_run.
    etrans; [apply after_diff_needs_txtshuffle|]. by destruct w.
Qed.

Lemma refresh_diff_exact_witness :
  needs_txtshuffle
    (exec (compute_needs_txtshuffle
             (DJson {| shuffle_data := {[ "1001-speed" := "42" ]};
                       locos_table := ""; loco_connlines := [];
                       status_map := {| markers := [] |} |})) page0) = [].
Proof.
  destruct (refresh_diff_exact
              {| shuffle_data := {[ "1001-speed" := "42" ]};
                 locos_table := ""; loco_connlines := [];
                 status_map := {| markers := [] |} |} page0)
    as (_ & _ & _ & _ & Hsame & _).
  apply Hsame. intros e He.
  apply list_elem_of_filter in He as [_ He].
  apply list_elem_of_singleton in He as ->. reflexivity.
Defined.

(** ** The refresh, step by step *)

(** Two states are equal when their fields are. *)
Lemma world_ext (w1 w2 : World) :
  curr_loco w1 = curr_loco w2 →
  curr_polylines w1 = curr_polylines w2 →
  persist_infobox w1 = persist_infobox w2 →
  status_map_markers w1 = status_map_markers w2 →
  needs_txtshuffle w1 = needs_txtshuffle w2 →
  locos_table_html w1 = locos_table_html w2 →
  elements w1 = elements w2 →
  render w1 = render w2 →
  on_map w1 = on_map w2 →
  next_id w1 = next_id w2 →
  trace w1 = trace w2 →
  w1 = w2.
Proof. destruct w1, w2; simpl; intros; by subst. Qed.

Ltac world_eq := f_equal; apply world_ext; try reflexivity; simpl.

Lemma remove_marker_step (m : Marker) (w : World) :
  (modify (λ w, with_on_map (on_map w ∖ {[mk_id m]}) w) ;; emit (EMarkerOff m)) w
  = (Ok tt, with_trace (trace w ++ [EMarkerOff m])
              (with_on_map (on_map w ∖ {[mk_id m]}) w)).
Proof. reflexivity. Qed.

Lemma remove_markers_loop (ms : list Marker) (w : World) :
  for_each (λ m,
    modify (λ w, with_on_map (on_map w ∖ {[mk_id m]}) w) ;;
    emit (EMarkerOff m)) ms w
  = (Ok tt, with_trace (trace w ++ (EMarkerOff <$> ms))
              (with_on_map (on_map w ∖ list_to_set (mk_id <$> ms)) w)).
Proof.
  revert w. induction ms as [|m ms IH]; intros w.
  - simpl. unfold mret, M_ret. world_eq.
    + by rewrite difference_empty_L.
    + by rewrite app_nil_r.
  - simpl. unfold mbind at 1, M_bind at 1.
    rewrite remove_marker_step, IH. world_eq.
    + by rewrite difference_difference_l_L.
    + by rewrite <- app_assoc.
Qed.

Lemma remove_polyline_step (p : Polyline) (w : World) :
  (modify (λ w, with_on_map (on_map w ∖ {[pl_id p]}) w) ;; emit (EPolylineOff p)) w
  = (Ok tt, with_trace (trace w ++ [EPolylineOff p])
              (with_on_map (on_map w ∖ {[pl_id p]}) w)).
Proof. reflexivity. Qed.

Lemma remove_polylines_loop (ps : list Polyline) (w : World) :
  for_each (λ p,
    modify (λ w, with_on_map (on_map w ∖ {[pl_id p]}) w) ;;
    emit (EPolylineOff p)) ps w
  = (Ok tt, with_trace (trace w ++ (EPolylineOff <$> ps))
              (with_on_map (on_map w ∖ list_to_set (pl_id <$> ps)) w)).
Proof.
  revert w. induction ps as [|p ps IH]; intros w.
  - simpl. unfold mret, M_ret. world_eq.
    + by rewrite difference_empty_L.
    + by rewrite app_nil_r.
  - simpl. unfold mbind at 1, M_bind at 1.
    rewrite remove_polyline_step, IH. world_eq.
    + by rewrite difference_difference_l_L.
    + by rewrite <- app_assoc.
Qed.

Lemma remove_markers_and_polylines_run (w : World) :
  remove_markers_and_polylines w = (Ok tt, after_removal w).
Proof.
  unfold remove_markers_and_polylines, gets.
  unfold mbind at 1, M_bind at 1. unfold mbind at 1, M_bind at 1.
  rewrite remove_markers_loop.
  unfold mbind at 1, M_bind at 1. unfold modify at 1.
  unfold mbind at 1, M_bind at 1. unfold mbind at 1, M_bind at 1.
  rewrite remove_polylines_loop.
  unfold after_removal, marker_ids, polyline_ids, modify. world_eq.
  by rewrite <- app_assoc.
Qed.

Lemma create_polyline_step (pth : list LatLng) (w : World) :
  (id ← new_object true;
   modify (λ w, with_curr_polylines
                  (curr_polylines w ++ [{| pl_id := id; path := pth |}]) w)) w
  = (Ok tt, after_polylines [pth] w).
Proof.
  unfold after_polylines, new_object, gets, modify, mbind, M_bind, mret, M_ret.
  simpl. world_eq.
  - by rewrite union_empty_r_L.
  - lia.
Qed.

Lemma create_polylines_loop (paths : list (list LatLng)) (w : World) :
  for_each (λ pth,
    id ← new_object true;
    modify (λ w, with_curr_polylines
                   (curr_polylines w ++ [{| pl_id := id; path := pth |}]) w))
    paths w
  = (Ok tt, after_polylines paths w).
Proof.
  revert w. induction paths as [|pth paths IH]; intros w.
  - unfold after_polylines; simpl. unfold mret, M_ret. world_eq.
    + by rewrite app_nil_r.
    + by rewrite union_empty_l_L.
    + lia.
  - simpl. unfold mbind at 1, M_bind at 1.
    rewrite create_polyline_step, IH. unfold after_polylines. world_eq.
    + rewrite <- app_assoc. simpl. do 3 f_equal. lia.
    + replace (next_id w + 1) with (S (next_id w)) by lia.
      rewrite union_empty_r_L. set_solver.
    + lia.
Qed.

Lemma create_polylines_run (p : Payload) (w : World) :
  create_polylines (DJson p) w = (Ok tt, after_polylines (loco_connlines p) w).
Proof. apply create_polylines_loop. Qed.

Lemma create_marker_step (d : MarkerDesc) (w : World) :
  (mid ← new_object true;
   iid ← new_object false;
   let infobox := {| iw_id := iid; content := d_infobox d |} in
   let marker := {| mk_id := mid; title := d_title d;
                    position := {| lat := d_lat d; lng := d_lng d |};
                    icon := d_icon d; listener_infobox := infobox |} in
   modify (λ w, with_status_map_markers (status_map_markers w ++ [marker]) w)) w
  = (Ok tt, after_markers [d] w).
Proof.
  unfold after_markers, new_object, gets, modify, mbind, M_bind, mret, M_ret.
  simpl. world_eq.
  - by rewrite union_empty_r_L.
  - lia.
Qed.

Lemma create_markers_loop (ds : list MarkerDesc) (w : World) :
  for_each (λ d,
    mid ← new_object true;
    iid ← new_object false;
    let infobox := {| iw_id := iid; content := d_infobox d |} in
    let marker := {| mk_id := mid; title := d_title d;
                     position := {| lat := d_lat d; lng := d_lng d |};
                     icon := d_icon d; listener_infobox := infobox |} in
    modify (λ w, with_status_map_markers (status_map_markers w ++ [marker]) w))
    ds w
  = (Ok tt, after_markers ds w).
Proof.
  revert w. induction ds as [|d ds IH]; intros w.
  - unfold after_markers; simpl. unfold mret, M_ret. world_eq.
    + by rewrite app_nil_r.
    + by rewrite union_empty_l_L.
    + lia.
  - simpl. unfold mbind at 1, M_bind at 1.
    rewrite create_marker_step, IH. unfold after_markers. world_eq.
    + rewrite <- app_assoc. simpl. do 3 f_equal. lia.
    + replace (next_id w + 2) with (S (S (next_id w))) by lia.
      rewrite union_empty_r_L. set_solver.
    + lia.
Qed.

Lemma create_markers_run (p : Payload) (w : World) :
  create_markers (DJson p) w = (Ok tt, after_markers (markers (status_map p)) w).
Proof.
  unfold create_markers, get_status_map, deref.
  unfold mbind at 1, M_bind at 1. simpl. apply create_markers_loop.
Qed.

Lemma shuffle_loop (cells : list Element) (w : World) :
  for_each (λ e,
    needs ← gets needs_txtshuffle;
    if bool_decide (el_id e ∈ needs) then emit (EShuffle (el_id e)) else mret tt)
    cells w
  = (Ok tt, with_trace
              (trace w ++ (EShuffle <$>
                 (el_id <$> filter (λ e, el_id e ∈ needs_txtshuffle w) cells))) w).
Proof.
  revert w. induction cells as [|e cells IH]; intros w.
  - simpl. unfold mret, M_ret. world_eq. by rewrite app_nil_r.
  - simpl. unfold mbind at 1, M_bind at 1. unfold gets at 1.
    unfold mbind at 1, M_bind at 1. rewrite filter_cons.
    destruct (decide (el_id e ∈ needs_txtshuffle w)) as [Hin|Hin].
    + rewrite bool_decide_eq_true_2 by done.
      unfold emit, modify. rewrite IH. world_eq.
      by rewrite <- app_assoc.
    + rewrite bool_decide_eq_false_2 by done. apply IH.
Qed.

Lemma shuffle_changed_run (w : World) :
  shuffle_changed w = (Ok tt, after_shuffle w).
Proof.
  unfold shuffle_changed, gets. unfold mbind at 1, M_bind at 1.
  apply shuffle_loop.
Qed.

Lemma set_className_absent (id cls : string) (els : list Element) :
  getElementById id els = None → set_className id cls els = els.
Proof.
  unfold getElementById. induction els as [|e els IH]; simpl; [done|].
  destruct (String.eqb (el_id e) id); [done|]. intros H. by rewrite IH.
Qed.

Lemma refresh_locos_table_run (p : Payload) (w : World) :
  refresh_locos_table (DJson p) w =
  (if selected_row_missing p w then TypeError else Ok tt, after_table p w).
Proof.
  unfold refresh_locos_table, selected_row_missing, after_table, rendered,
    get_locos_table, gets, modify, deref, mbind, M_bind, mret, M_ret, throw.
  destruct w as [c ps pi ms nd h els r om nx tr]; simpl.
  destruct c as [id|]; [|done]. simpl.
  destruct (negb (String.eqb id "")); simpl; [|done].
  destruct (getElementById id (r els (locos_table p))) eqn:E; simpl; [done|].
  by rewrite set_className_absent.
Qed.

Lemma bind_Ok {A B} (m : M A) (k : A → M B) (w w' : World) (a : A) :
  m w = (Ok a, w') → (m ≫= k) w = k a w'.
Proof. intros H. unfold mbind, M_bind. by rewrite H. Qed.

Lemma bind_TypeError {A B} (m : M A) (k : A → M B) (w w' : World) :
  m w = (TypeError, w') → (m ≫= k) w = (TypeError, w').
Proof. intros H. unfold mbind, M_bind. by rewrite H. Qed.

Lemma open_run (w : World) : open w = (Ok tt, exec open w).
Proof.
  destruct (returns_open w) as [[] Ho]. unfold result, exec in *.
  destruct (open w) as [o w']; simpl in *. by subst o.
Qed.

Lemma success_unfold (p : Payload) :
  success (DJson p) =
  (compute_needs_txtshuffle (DJson p) ;;
   refresh_locos_table (DJson p) ;;
   shuffle_changed ;;
   remove_markers_and_polylines ;;
   create_polylines (DJson p) ;;
   create_markers (DJson p) ;;
   open ;;
   emit (EConsoleLog "Home Refreshed - client side took: ")).
Proof. reflexivity. Qed.

Lemma selected_row_missing_after_diff (p : Payload) (w : World) :
  selected_row_missing p (after_diff p w) = selected_row_missing p w.
Proof. reflexivity. Qed.

(** A refresh with a payload either stops at home.js:128, with the table
    replaced and nothing else of the page redrawn, or runs to its end. *)
Lemma success_json_run (p : Payload) (w : World) :
  success (DJson p) w =
  if selected_row_missing p w
  then (TypeError, after_table p (after_diff p w))
  else (Ok tt, refreshed p w).
Proof.
  rewrite success_unfold.
  rewrite (bind_Ok _ _ w (after_diff p w) tt)
    by apply compute_needs_txtshuffle_run.
  pose proof (refresh_locos_table_run p (after_diff p w)) as Ht.
  rewrite selected_row_missing_after_diff in Ht.
  destruct (selected_row_missing p w).
  - by apply bind_TypeError.
  - rewrite (bind_Ok _ _ _ _ tt Ht).
    rewrite (bind_Ok _ _ _ _ tt (shuffle_changed_run _)).
    rewrite (bind_Ok _ _ _ _ tt (remove_markers_and_polylines_run _)).
    rewrite (bind_Ok _ _ _ _ tt (create_polylines_run _ _)).
    rewrite (bind_Ok _ _ _ _ tt (create_markers_run _ _)).
    rewrite (bind_Ok _ _ _ _ tt (open_run _)).
    reflexivity.
Qed.

Lemma exec_open (w : World) :
  exec open w =
  match infobox (persist_infobox w) with
  | Some iw =>
      with_trace (trace w ++ [EInfoOpen iw (marker (persist_infobox w))])
        (with_on_map ({[iw_id iw]} ∪ on_map w) w)
  | None => w
  end.
Proof.
  unfold exec. destruct (infobox (persist_infobox w)) as [iw|] eqn:H.
  - by rewrite (open_Some w iw H).
  - by rewrite (open_None w H).
Qed.

(** *** The fields of the state after each step *)

(** The fields a step writes. *)

Lemma needs_txtshuffle_after_diff (p : Payload) (w : World) :
  needs_txtshuffle (after_diff p w) =
  changed_ids (shuffle_data p) (shuffleable (elements w)).
Proof. reflexivity. Qed.

Lemma locos_table_html_after_table (p : Payload) (w : World) :
  locos_table_html (after_table p w) =
  locos_table p.
Proof. reflexivity. Qed.

Lemma elements_after_table (p : Payload) (w : World) :
  elements (after_table p w) =
  match curr_loco w with
  | Some id =>
      if truthy_str (Some id)
      then set_className id "clicked" (rendered p w)
      else rendered p w
  | None => rendered p w
  end.
Proof. reflexivity. Qed.

Lemma trace_after_shuffle (w : World) :
  trace (after_shuffle w) =
  trace w ++ (EShuffle <$> shuffled_ids w).
Proof. reflexivity. Qed.

Lemma curr_polylines_after_removal (w : World) :
  curr_polylines (after_removal w) =
  [].
Proof. reflexivity. Qed.

Lemma status_map_markers_after_removal (w : World) :
  status_map_markers (after_removal w) =
  [].
Proof. reflexivity. Qed.

Lemma trace_after_removal (w : World) :
  trace (after_removal w) =
  trace w ++ (EMarkerOff <$> status_map_markers w)
          ++ (EPolylineOff <$> curr_polylines w).
Proof. reflexivity. Qed.

Lemma on_map_after_removal (w : World) :
  on_map (after_removal w) =
  on_map w ∖ marker_ids w ∖ polyline_ids w.
Proof. reflexivity. Qed.

Lemma curr_polylines_after_polylines (paths : list (list LatLng)) (w : World) :
  curr_polylines (after_polylines paths w) =
  curr_polylines w ++ build_polylines (next_id w) paths.
Proof. reflexivity. Qed.

Lemma on_map_after_polylines (paths : list (list LatLng)) (w : World) :
  on_map (after_polylines paths w) =
  list_to_set (pl_id <$> build_polylines (next_id w) paths) ∪ on_map w.
Proof. reflexivity. Qed.

Lemma next_id_after_polylines (paths : list (list LatLng)) (w : World) :
  next_id (after_polylines paths w) =
  next_id w + length paths.
Proof. reflexivity. Qed.

Lemma status_map_markers_after_markers (ds : list MarkerDesc) (w : World) :
  status_map_markers (after_markers ds w) =
  status_map_markers w ++ build_markers (next_id w) ds.
Proof. reflexivity. Qed.

Lemma on_map_after_markers (ds : list MarkerDesc) (w : World) :
  on_map (after_markers ds w) =
  list_to_set (mk_id <$> build_markers (next_id w) ds) ∪ on_map w.
Proof. reflexivity. Qed.

Lemma next_id_after_markers (ds : list MarkerDesc) (w : World) :
  next_id (after_markers ds w) =
  next_id w + 2 * length ds.
Proof. reflexivity. Qed.

Lemma trace_after_log (w : World) :
  trace (after_log w) =
  trace w ++ [EConsoleLog "Home Refreshed - client side took: "].
Proof. reflexivity. Qed.

Lemma trace_requested (w : World) :
  trace (requested w) =
  trace w ++ [EAjax (curr_loco w)].
Proof. reflexivity. Qed.

Lemma curr_loco_with_curr_loco v (w : World) : curr_loco (with_curr_loco v w) = v.
Proof. reflexivity. Qed.

Lemma curr_polylines_with_curr_polylines v (w : World) : curr_polylines (with_curr_polylines v w) = v.
Proof. reflexivity. Qed.

Lemma persist_infobox_with_persist_infobox v (w : World) : persist_infobox (with_persist_infobox v w) = v.
Proof. reflexivity. Qed.

Lemma status_map_markers_with_status_map_markers v (w : World) : status_map_markers (with_status_map_markers v w) = v.
Proof. reflexivity. Qed.

Lemma needs_txtshuffle_with_needs_txtshuffle v (w : World) : needs_txtshuffle (with_needs_txtshuffle v w) = v.
Proof. reflexivity. Qed.

Lemma on_map_with_on_map v (w : World) : on_map (with_on_map v w) = v.
Proof. reflexivity. Qed.

Lemma next_id_with_next_id v (w : World) : next_id (with_next_id v w) = v.
Proof. reflexivity. Qed.

Lemma trace_with_trace v (w : World) : trace (with_trace v w) = v.
Proof. reflexivity. Qed.

Create Rewrite HintDb fields.
#[global] Hint Rewrite needs_txtshuffle_after_diff
  locos_table_html_after_table elements_after_table trace_after_shuffle
  curr_polylines_after_removal status_map_markers_after_removal
  trace_after_removal on_map_after_removal curr_polylines_after_polylines
  on_map_after_polylines next_id_after_polylines
  status_map_markers_after_markers on_map_after_markers next_id_after_markers
  trace_after_log trace_requested curr_loco_with_curr_loco
  curr_polylines_with_curr_polylines persist_infobox_with_persist_infobox
  status_map_markers_with_status_map_markers
  needs_txtshuffle_with_needs_txtshuffle on_map_with_on_map
  next_id_with_next_id trace_with_trace : fields.

(** The fields a step does not write are read through it. *)
Ltac skip_steps :=
  repeat match goal with
  | |- context [?f (?g ?w)] =>
      lazymatch type of w with World => idtac end;
      lazymatch type of (g w) with World => idtac end;
      let H := fresh in
      assert (H : ∀ w', f (g w') = f w') by reflexivity;
      rewrite !H; clear H
  end.

Ltac fields := repeat first [progress autorewrite with fields | progress skip_steps].

Lemma refreshed_persist_infobox (p : Payload) (w : World) :
  persist_infobox (refreshed p w) = persist_infobox w.
Proof.
  unfold refreshed. fields. rewrite open_persist_infobox. by fields.
Qed.

Lemma refreshed_status_map_markers (p : Payload) (w : World) :
  status_map_markers (refreshed p w) =
  build_markers (next_id w + length (loco_connlines p)) (markers (status_map p)).
Proof.
  unfold refreshed. rewrite exec_open.
  destruct (infobox _); by fields.
Qed.

Lemma refreshed_curr_polylines (p : Payload) (w : World) :
  curr_polylines (refreshed p w) = build_polylines (next_id w) (loco_connlines p).
Proof.
  unfold refreshed. rewrite exec_open.
  destruct (infobox _); by fields.
Qed.

Lemma refreshed_trace (p : Payload) (w : World) :
  trace (refreshed p w) =
  trace w
  ++ (EShuffle <$> shuffled_ids (after_table p (after_diff p w)))
  ++ (EMarkerOff <$> status_map_markers w)
  ++ (EPolylineOff <$> curr_polylines w)
  ++ reopened w
  ++ [EConsoleLog "Home Refreshed - client side took: "].
Proof.
  unfold refreshed, reopened. rewrite exec_open. fields.
  destruct (infobox (persist_infobox w)); fields;
    rewrite <- ?app_assoc; reflexivity.
Qed.

Lemma refreshed_on_map (p : Payload) (w : World) :
  on_map (refreshed p w) =
  popup_ids w
  ∪ list_to_set (mk_id <$> build_markers (next_id w + length (loco_connlines p))
                             (markers (status_map p)))
  ∪ list_to_set (pl_id <$> build_polylines (next_id w) (loco_connlines p))
  ∪ (on_map w ∖ marker_ids w ∖ polyline_ids w).
Proof.
  unfold refreshed, popup_ids. rewrite exec_open. fields.
  destruct (infobox (persist_infobox w)); fields.
  - by rewrite !(assoc_L (∪)).
  - by rewrite (left_id_L ∅ (∪)), !(assoc_L (∪)).
Qed.

Lemma refreshed_next_id (p : Payload) (w : World) :
  next_id (refreshed p w) =
  next_id w + length (loco_connlines p) + 2 * length (markers (status_map p)).
Proof.
  unfold refreshed. rewrite exec_open.
  destruct (infobox _); by fields.
Qed.

Lemma refreshed_curr_loco (p : Payload) (w : World) :
  curr_loco (refreshed p w) = curr_loco w.
Proof.
  unfold refreshed. rewrite exec_open.
  destruct (infobox _); by fields.
Qed.

Lemma refreshed_locos_table_html (p : Payload) (w : World) :
  locos_table_html (refreshed p w) = locos_table p.
Proof.
  unfold refreshed. rewrite exec_open.
  destruct (infobox _); by fields.
Qed.

(** ** What the markers and polylines of a refresh are *)

Lemma build_markers_title (start : nat) (ds : list MarkerDesc) :
  title <$> build_markers start ds = d_title <$> ds.
Proof.
  revert start. induction ds as [|d ds IH]; intros start; simpl; [done|].
  by rewrite IH.
Qed.

Lemma build_markers_content (start : nat) (ds : list MarkerDesc) :
  (λ m, content (listener_infobox m)) <$> build_markers start ds
  = d_infobox <$> ds.
Proof.
  revert start. induction ds as [|d ds IH]; intros start; simpl; [done|].
  by rewrite IH.
Qed.

Lemma build_markers_lookup (start : nat) (ds : list MarkerDesc) (k : nat) (m : Marker) :
  build_markers start ds !! k = Some m →
  mk_id m = start + 2 * k ∧ iw_id (listener_infobox m) = start + 2 * k + 1.
Proof.
  revert start k. induction ds as [|d ds IH]; intros start k; simpl; [done|].
  destruct k as [|k]; simpl.
  - intros [= <-]. simpl. lia.
  - intros H. apply IH in H. lia.
Qed.

Lemma build_markers_ge (start : nat) (ds : list MarkerDesc) (m : Marker) :
  m ∈ build_markers start ds →
  start ≤ mk_id m ∧ start < iw_id (listener_infobox m).
Proof.
  intros [k Hk]%list_elem_of_lookup. apply build_markers_lookup in Hk. lia.
Qed.

Lemma build_polylines_path (start : nat) (paths : list (list LatLng)) :
  path <$> build_polylines start paths = paths.
Proof.
  revert start. induction paths as [|pth paths IH]; intros start; simpl; [done|].
  by rewrite IH.
Qed.

Lemma build_polylines_lookup (start : nat) (paths : list (list LatLng)) (k : nat) (l : Polyline) :
  build_polylines start paths !! k = Some l → pl_id l = start + k.
Proof.
  revert start k. induction paths as [|pth paths IH]; intros start k; simpl; [done|].
  destruct k as [|k]; simpl.
  - intros [= <-]. simpl. lia.
  - intros H. apply IH in H. lia.
Qed.

Lemma result_success_json (p : Payload) (w : World) :
  result (success (DJson p)) w =
  if selected_row_missing p w then TypeError else Ok tt.
Proof.
  unfold result. rewrite success_json_run.
  by destruct (selected_row_missing p w).
Qed.

Lemma exec_success_json (p : Payload) (w : World) :
  result (success (DJson p)) w = Ok tt →
  exec (success (DJson p)) w = refreshed p w.
Proof.
  unfold result, exec. rewrite success_json_run.
  by destruct (selected_row_missing p w).
Qed.

(** ** Properties of a refresh *)

(** X1. A refresh with a JSON payload runs to its end exactly when no row is
    selected (null or the empty string) or the new table holds an element
    whose id is the selection; otherwise it throws at home.js:128. *)
Theorem refresh_completes_iff (p : Payload) (w : World) :
  result (success (DJson p)) w = Ok tt ↔
  curr_loco w = None ∨ curr_loco w = Some "" ∨
  ∃ id e, curr_loco w = Some id ∧
          getElementById id (render w (elements w) (locos_table p)) = Some e.
Proof.
  rewrite result_success_json. unfold selected_row_missing, rendered.
  destruct (curr_loco w) as [id|]; [|split; eauto].
  simpl. destruct (String.eqb id "") eqn:Hid; simpl.
  { apply String.eqb_eq in Hid as ->. split; eauto. }
  apply String.eqb_neq in Hid.
  destruct (getElementById id _) as [e|] eqn:He; simpl.
  - split; eauto 10.
  - split; [done|].
    intros [?|[[= ?]|(id' & e & [= <-] & ?)]]; congruence.
Qed.

(** X2. When the selected row is not in the new table, the refresh stops
    after replacing the table: the map is not redrawn (markers, polylines
    and what is on the map stay), nothing is called, and the popup is not
    reopened. *)
Theorem refresh_stops_without_selected_row (p : Payload) (w : World) (id : string) :
  curr_loco w = Some id →
  id ≠ "" →
  getElementById id (render w (elements w) (locos_table p)) = None →
  result (success (DJson p)) w = TypeError ∧
  locos_table_html (exec (success (DJson p)) w) = locos_table p ∧
  elements (exec (success (DJson p)) w) = render w (elements w) (locos_table p) ∧
  status_map_markers (exec (success (DJson p)) w) = status_map_markers w ∧
  curr_polylines (exec (success (DJson p)) w) = curr_polylines w ∧
  on_map (exec (success (DJson p)) w) = on_map w ∧
  persist_infobox (exec (success (DJson p)) w) = persist_infobox w ∧
  trace (exec (success (DJson p)) w) = trace w.
Proof.
  intros Hsel Hid Hrow.
  assert (Hmiss : selected_row_missing p w = true).
  { unfold selected_row_missing, rendered. rewrite Hsel, Hrow. simpl.
    apply String.eqb_neq in Hid. by rewrite Hid. }
  unfold result, exec. rewrite success_json_run, Hmiss. simpl.
  split_and!; fields; try reflexivity.
  rewrite Hsel. simpl. apply String.eqb_neq in Hid. rewrite Hid. simpl.
  by apply set_className_absent.
Qed.

Lemma refresh_stops_without_selected_row_witness :
  result (success (DJson {| shuffle_data := ∅; locos_table := "";
                            loco_connlines := [];
                            status_map := {| markers := [] |} |}))
    (with_curr_loco (Some "Loco 1001") page0) = TypeError.
Proof.
  apply (refresh_stops_without_selected_row _ _ "Loco 1001"); by vm_compute.
Defined.

(** X3. A refresh that runs to its end replaces the map's objects by the
    payload's: one marker per descriptor, in order, with the descriptor's
    title, position and icon and an info window of the descriptor's
    content; one polyline per path, in order; every one a new object (none
    of the identities in use before). *)
Theorem refresh_redraws_from_payload (p : Payload) (w : World) :
  result (success (DJson p)) w = Ok tt →
  status_map_markers (exec (success (DJson p)) w)
    = build_markers (next_id w + length (loco_connlines p))
        (markers (status_map p)) ∧
  title <$> status_map_markers (exec (success (DJson p)) w)
    = d_title <$> markers (status_map p) ∧
  (λ m, content (listener_infobox m)) <$> status_map_markers (exec (success (DJson p)) w)
    = d_infobox <$> markers (status_map p) ∧
  path <$> curr_polylines (exec (success (DJson p)) w) = loco_connlines p ∧
  (∀ m, m ∈ status_map_markers (exec (success (DJson p)) w) →
        next_id w ≤ mk_id m ∧ next_id w < iw_id (listener_infobox m)) ∧
  (∀ l, l ∈ curr_polylines (exec (success (DJson p)) w) → next_id w ≤ pl_id l).
Proof.
  intros Hok. rewrite (exec_success_json p w Hok).
  rewrite refreshed_status_map_markers, refreshed_curr_polylines.
  split_and!.
  - done.
  - apply build_markers_title.
  - apply build_markers_content.
  - apply build_polylines_path.
  - intros m Hm. apply build_markers_ge in Hm. lia.
  - intros l [k Hk]%list_elem_of_lookup.
    apply build_polylines_lookup in Hk. lia.
Qed.

(** X4. The calls of a refresh that runs to its end, in order: the shuffle
    effect on the cells of the new document whose id was noted as changed
    against the old one, then [setMap(null)] on every old marker and then on
    every old polyline, each once and in list order, then the reopening of
    the persisted popup if there is one, then the log line. *)
Theorem refresh_call_order (p : Payload) (w : World) :
  result (success (DJson p)) w = Ok tt →
  ∃ shuffled,
    trace (exec (success (DJson p)) w) =
      trace w
      ++ (EShuffle <$> shuffled)
      ++ (EMarkerOff <$> status_map_markers w)
      ++ (EPolylineOff <$> curr_polylines w)
      ++ reopened w
      ++ [EConsoleLog "Home Refreshed - client side took: "] ∧
    ∀ id, id ∈ shuffled ↔
          id ∈ changed_ids (shuffle_data p) (shuffleable (elements w)) ∧
          ∃ e, e ∈ shuffleable (elements (exec (success (DJson p)) w)) ∧
               el_id e = id.
Proof.
  intros Hok. rewrite (exec_success_json p w Hok).
  exists (shuffled_ids (after_table p (after_diff p w))).
  split; [apply refreshed_trace|].
  assert (Hels : elements (refreshed p w) = elements (after_table p (after_diff p w))).
  { unfold refreshed. rewrite exec_open. destruct (infobox _); by fields. }
  rewrite Hels. intros id. unfold shuffled_ids.
  rewrite list_elem_of_fmap. fields. split.
  - intros (e & -> & He). apply list_elem_of_filter in He as [Hn He]. eauto.
  - intros (Hn & e & He & <-). exists e. split; [done|].
    by apply list_elem_of_filter.
Qed.

(** X5. A refresh that runs to its end keeps the persisted popup: the two
    references are as before, the info window is on the map afterwards, and
    its reopening is the last call before the log line.  The popup stays
    anchored to the marker object it was opened on, which is an old object:
    it is not among the markers drawn by the refresh. *)
Theorem refresh_keeps_popup (p : Payload) (w : World) (iw : InfoWindow) :
  result (success (DJson p)) w = Ok tt →
  infobox (persist_infobox w) = Some iw →
  persist_infobox (exec (success (DJson p)) w) = persist_infobox w ∧
  iw_id iw ∈ on_map (exec (success (DJson p)) w) ∧
  (∃ before, trace (exec (success (DJson p)) w) =
     before ++ [EInfoOpen iw (marker (persist_infobox w));
                EConsoleLog "Home Refreshed - client side took: "]) ∧
  (∀ m, marker (persist_infobox w) = Some m → mk_id m < next_id w →
        m ∉ status_map_markers (exec (success (DJson p)) w)).
Proof.
  intros Hok Hiw. rewrite (exec_success_json p w Hok). split_and!.
  - apply refreshed_persist_infobox.
  - rewrite refreshed_on_map. unfold popup_ids. rewrite Hiw. set_solver.
  - rewrite refreshed_trace. unfold reopened. rewrite Hiw.
    eexists. rewrite !app_assoc. rewrite <- app_assoc. reflexivity.
  - intros m _ Hm Hin. rewrite refreshed_status_map_markers in Hin.
    apply build_markers_ge in Hin. lia.
Qed.

Lemma refresh_redraws_from_payload_witness :
  title <$> status_map_markers
              (exec (success (DJson payload_base3))
                 (page_with_popup iw_base3 mk_base3)) = ["Base 3"] ∧
  path <$> curr_polylines
             (exec (success (DJson payload_base3))
                (page_with_popup iw_base3 mk_base3)) = [[origin; origin]].
Proof.
  destruct (refresh_redraws_from_payload payload_base3
              (page_with_popup iw_base3 mk_base3))
    as (_ & Ht & _ & Hp & _); [by vm_compute|].
  split; [exact Ht | exact Hp].
Defined.

Lemma refresh_call_order_witness :
  ∃ shuffled,
    trace (exec (success (DJson payload_base3)) (page_with_popup iw_base3 mk_base3)) =
      (EShuffle <$> shuffled)
      ++ [EMarkerOff mk_base3; EMarkerOff mk_loco1002]
      ++ [EInfoOpen iw_base3 (Some mk_base3);
          EConsoleLog "Home Refreshed - client side took: "].
Proof.
  destruct (refresh_call_order payload_base3 (page_with_popup iw_base3 mk_base3))
    as (shuffled & Ht & _); [by vm_compute|].
  exists shuffled. exact Ht.
Defined.

Lemma refresh_keeps_popup_witness :
  persist_infobox (exec (success (DJson payload_base3))
                     (page_with_popup iw_base3 mk_base3))
    = {| infobox := Some iw_base3; marker := Some mk_base3 |} ∧
  mk_base3 ∉ status_map_markers
               (exec (success (DJson payload_base3))
                  (page_with_popup iw_base3 mk_base3)).
Proof.
  destruct (refresh_keeps_popup payload_base3
              (page_with_popup iw_base3 mk_base3) iw_base3)
    as (Hpi & _ & _ & Hold); [by vm_compute | reflexivity |].
  split; [exact Hpi|]. apply Hold; [reflexivity | simpl; lia].
Defined.

(** ** One popup at a time *)

Lemma keeps_bind (P : World → Prop) {A B} (m : M A) (k : A → M B) :
  keeps P m → (∀ a, keeps P (k a)) → keeps P (m ≫= k).
Proof.
  intros Hm Hk w HP. specialize (Hm w HP). revert Hm.
  unfold exec, mbind, M_bind. destruct (m w) as [[a|] w']; simpl; [|done].
  apply Hk.
Qed.

Lemma keeps_run (P : World → Prop) {A} (m : M A) (g : World → World) :
  (∀ w, exec m w = g w) → (∀ w, P w → P (g w)) → keeps P m.
Proof. intros Hm Hg w HP. rewrite Hm. by apply Hg. Qed.

Lemma tidy_core (w1 w2 : World) : core w1 = core w2 → tidy w1 → tidy w2.
Proof.
  unfold core, tidy, marker_ids, polyline_ids, listener_ids, popup_ids.
  by intros [= -> -> -> -> ->].
Qed.

Lemma keeps_tidy_of_preserves {A} (m : M A) : preserves core m → keeps tidy m.
Proof. intros Hm w Hw. by apply (tidy_core w); [symmetry; apply Hm|]. Qed.

Lemma build_markers_length (start : nat) (ds : list MarkerDesc) :
  length (build_markers start ds) = length ds.
Proof.
  revert start. induction ds as [|d ds IH]; intros start; simpl; [done|].
  by rewrite IH.
Qed.

Lemma build_polylines_length (start : nat) (paths : list (list LatLng)) :
  length (build_polylines start paths) = length paths.
Proof.
  revert start. induction paths as [|d ds IH]; intros start; simpl; [done|].
  by rewrite IH.
Qed.

Lemma elem_of_new_marker_ids (start : nat) (ds : list MarkerDesc) (x : nat) :
  x ∈ (list_to_set (mk_id <$> build_markers start ds) : gset nat) →
  ∃ k, k < length ds ∧ x = start + 2 * k.
Proof.
  rewrite elem_of_list_to_set, list_elem_of_fmap.
  intros (m & -> & [k Hk]%list_elem_of_lookup). exists k. split.
  - apply lookup_lt_Some in Hk. by rewrite build_markers_length in Hk.
  - by apply build_markers_lookup in Hk as [? _].
Qed.

Lemma elem_of_new_listener_ids (start : nat) (ds : list MarkerDesc) (x : nat) :
  x ∈ (λ m, iw_id (listener_infobox m)) <$> build_markers start ds →
  ∃ k, k < length ds ∧ x = start + 2 * k + 1.
Proof.
  rewrite list_elem_of_fmap.
  intros (m & -> & [k Hk]%list_elem_of_lookup). exists k. split.
  - apply lookup_lt_Some in Hk. by rewrite build_markers_length in Hk.
  - by apply build_markers_lookup in Hk as [_ ?].
Qed.

Lemma elem_of_new_polyline_ids (start : nat) (paths : list (list LatLng)) (x : nat) :
  x ∈ (list_to_set (pl_id <$> build_polylines start paths) : gset nat) →
  ∃ k, k < length paths ∧ x = start + k.
Proof.
  rewrite elem_of_list_to_set, list_elem_of_fmap.
  intros (l & -> & [k Hk]%list_elem_of_lookup). exists k. split.
  - apply lookup_lt_Some in Hk. by rewrite build_polylines_length in Hk.
  - by apply build_polylines_lookup in Hk.
Qed.

Lemma NoDup_new_listener_ids (start : nat) (ds : list MarkerDesc) :
  NoDup ((λ m, iw_id (listener_infobox m)) <$> build_markers start ds).
Proof.
  revert start. induction ds as [|d ds IH]; intros start; simpl.
  - constructor.
  - constructor; [|apply IH].
    intros (k & _ & Hk)%elem_of_new_listener_ids. lia.
Qed.

Lemma tidy_with_trace (v : list Event) (w : World) : tidy w → tidy (with_trace v w).
Proof. by apply tidy_core. Qed.

Lemma tidy_with_curr_loco (v : option string) (w : World) :
  tidy w → tidy (with_curr_loco v w).
Proof. by apply tidy_core. Qed.

Lemma tidy_close (w : World) : tidy w → tidy (exec close w).
Proof.
  intros Hw. unfold exec.
  destruct (infobox (persist_infobox w)) as [iw|] eqn:Hiw.
  - rewrite (close_Some w iw Hiw). simpl.
    destruct Hw as (Hmap & Hl & Hp & Hnd & Hfresh).
    unfold tidy, marker_ids, polyline_ids, listener_ids, popup_ids in *.
    rewrite Hiw in *. simpl.
    split_and!; [set_solver | done | set_solver | done |].
    intros id Hid. apply Hfresh. set_solver.
  - by rewrite (close_None w Hiw).
Qed.

Lemma tidy_open (w : World) : tidy w → tidy (exec open w).
Proof.
  intros Hw. rewrite exec_open.
  destruct (infobox (persist_infobox w)) as [iw|] eqn:Hiw; [|done].
  destruct Hw as (Hmap & Hl & Hp & Hnd & Hfresh).
  unfold tidy, marker_ids, polyline_ids, listener_ids, popup_ids in *.
  simpl. rewrite Hiw in *.
  split_and!; [set_solver | done | done | done | done].
Qed.

Lemma tidy_set_listener (m : Marker) (w : World) :
  tidy w → m ∈ status_map_markers w → infobox (persist_infobox w) = None →
  tidy (exec (set (Some (listener_infobox m)) (Some m)) w).
Proof.
  intros (Hmap & Hl & Hp & Hnd & Hfresh) Hm Hnone.
  assert (Hin : iw_id (listener_infobox m) ∈ listener_ids w).
  { unfold listener_ids. apply elem_of_list_to_set, list_elem_of_fmap. eauto. }
  unfold tidy, marker_ids, polyline_ids, listener_ids, popup_ids in *.
  simpl. rewrite Hnone in *.
  split_and!; [set_solver | done | set_solver | done |].
  intros id Hid. apply Hfresh. set_solver.
Qed.

Lemma tidy_after_removal (w : World) : tidy w → tidy (after_removal w).
Proof.
  intros (Hmap & Hl & Hp & Hnd & Hfresh).
  unfold tidy, marker_ids, polyline_ids, listener_ids, popup_ids in *.
  fields. simpl.
  split_and!; [set_solver | set_solver | set_solver | constructor |].
  intros id Hid. apply Hfresh. set_solver.
Qed.

Lemma tidy_after_polylines (paths : list (list LatLng)) (w : World) :
  tidy w → tidy (after_polylines paths w).
Proof.
  intros (Hmap & Hl & Hp & Hnd & Hfresh).
  unfold tidy, marker_ids, polyline_ids, listener_ids, popup_ids in *.
  fields. rewrite fmap_app, list_to_set_app_L.
  assert (Hnew : ∀ x, x ∈ (list_to_set (pl_id <$> build_polylines (next_id w) paths)
                             : gset nat) →
                      next_id w ≤ x < next_id w + length paths).
  { intros x (k & ? & ->)%elem_of_new_polyline_ids. lia. }
  split_and!.
  - set_solver.
  - intros x Hx [Hm|[Hq|Hq]%elem_of_union]%elem_of_union.
    + apply (Hl x); set_solver.
    + apply (Hl x); set_solver.
    + apply Hnew in Hq. assert (x < next_id w) by (apply Hfresh; set_solver). lia.
  - intros x Hx [Hm|[Hq|Hq]%elem_of_union]%elem_of_union.
    + apply (Hp x); set_solver.
    + apply (Hp x); set_solver.
    + apply Hnew in Hq. assert (x < next_id w) by (apply Hfresh; set_solver). lia.
  - done.
  - intros id [[[Hm|[Hq|Hq]%elem_of_union]%elem_of_union|Hq]%elem_of_union|Hq]%elem_of_union.
    + assert (id < next_id w) by (apply Hfresh; set_solver). lia.
    + assert (id < next_id w) by (apply Hfresh; set_solver). lia.
    + apply Hnew in Hq. lia.
    + assert (id < next_id w) by (apply Hfresh; set_solver). lia.
    + assert (id < next_id w) by (apply Hfresh; set_solver). lia.
Qed.

Lemma preserves_status_map_markers_close : preserves status_map_markers close.
Proof. frame. Qed.

Lemma tidy_after_markers (ds : list MarkerDesc) (w : World) :
  tidy w → tidy (after_markers ds w).
Proof.
  intros (Hmap & Hl & Hp & Hnd & Hfresh).
  unfold tidy, marker_ids, polyline_ids, listener_ids, popup_ids in *.
  fields. rewrite !fmap_app, !list_to_set_app_L.
  assert (Hm : ∀ x, x ∈ (list_to_set (mk_id <$> build_markers (next_id w) ds)
                           : gset nat) →
                    ∃ k, k < length ds ∧ x = next_id w + 2 * k)
    by (intros x; apply elem_of_new_marker_ids).
  assert (Hi : ∀ x, x ∈ (list_to_set ((λ m, iw_id (listener_infobox m))
                                        <$> build_markers (next_id w) ds)
                           : gset nat) →
                    ∃ k, k < length ds ∧ x = next_id w + 2 * k + 1).
  { intros x Hx. apply elem_of_list_to_set in Hx.
    by apply elem_of_new_listener_ids. }
  assert (Hold : ∀ x,
    x ∈ (list_to_set (mk_id <$> status_map_markers w) : gset nat)
        ∪ list_to_set (pl_id <$> curr_polylines w)
        ∪ list_to_set ((λ m, iw_id (listener_infobox m)) <$> status_map_markers w)
        ∪ match infobox (persist_infobox w) with
          | Some iw => {[iw_id iw]}
          | None => ∅
          end →
    x < next_id w) by exact Hfresh.
  split_and!.
  - set_solver.
  - intros x [Hx|Hx]%elem_of_union [[Hy|Hy]%elem_of_union|Hy]%elem_of_union.
    + apply (Hl x); set_solver.
    + apply Hm in Hy as (k & _ & ->).
      assert (next_id w + 2 * k < next_id w) by (apply Hold; set_solver). lia.
    + apply (Hl x); set_solver.
    + apply Hi in Hx as (k & _ & ->).
      assert (next_id w + 2 * k + 1 < next_id w) by (apply Hold; set_solver). lia.
    + apply Hi in Hx as (k & _ & ->). apply Hm in Hy as (k' & _ & Hk'). lia.
    + apply Hi in Hx as (k & _ & ->).
      assert (next_id w + 2 * k + 1 < next_id w) by (apply Hold; set_solver). lia.
  - intros x Hx [[Hy|Hy]%elem_of_union|Hy]%elem_of_union.
    + apply (Hp x); set_solver.
    + apply Hm in Hy as (k & _ & ->).
      assert (next_id w + 2 * k < next_id w) by (apply Hold; set_solver). lia.
    + apply (Hp x); set_solver.
  - apply NoDup_app. split_and!; [done | | apply NoDup_new_listener_ids].
    intros x Hx (k & _ & ->)%elem_of_new_listener_ids.
    assert (next_id w + 2 * k + 1 < next_id w); [|lia].
    apply Hold. apply elem_of_union_l, elem_of_union_r.
    by apply elem_of_list_to_set.
  - intros id [[[[Hy|Hy]%elem_of_union|Hy]%elem_of_union
               |[Hy|Hy]%elem_of_union]%elem_of_union|Hy]%elem_of_union.
    + assert (id < next_id w) by (apply Hold; set_solver). lia.
    + apply Hm in Hy as (k & ? & ->). lia.
    + assert (id < next_id w) by (apply Hold; set_solver). lia.
    + assert (id < next_id w) by (apply Hold; set_solver). lia.
    + apply Hi in Hy as (k & ? & ->). lia.
    + assert (id < next_id w) by (apply Hold; set_solver). lia.
Qed.

Lemma keeps_tidy_create_polylines (data : Data) :
  keeps tidy (create_polylines data).
Proof.
  destruct data as [s|p]; [by intros w Hw|].
  apply (keeps_run _ _ (after_polylines (loco_connlines p)));
    [|apply tidy_after_polylines].
  intros w. unfold exec. by rewrite create_polylines_run.
Qed.

Lemma keeps_tidy_create_markers (data : Data) :
  keeps tidy (create_markers data).
Proof.
  destruct data as [s|p]; [by intros w Hw|].
  apply (keeps_run _ _ (after_markers (markers (status_map p))));
    [|apply tidy_after_markers].
  intros w. unfold exec. by rewrite create_markers_run.
Qed.

Lemma keeps_tidy_removal : keeps tidy remove_markers_and_polylines.
Proof.
  apply (keeps_run _ _ after_removal); [|apply tidy_after_removal].
  intros w. unfold exec. by rewrite remove_markers_and_polylines_run.
Qed.

Lemma keeps_tidy_success (data : Data) : keeps tidy (success data).
Proof.
  unfold success. destruct (is_error_sentinel data).
  { apply keeps_tidy_of_preserves. frame. }
  apply keeps_bind; [apply keeps_tidy_of_preserves; frame | intros _].
  apply keeps_bind; [apply keeps_tidy_of_preserves; frame | intros _].
  apply keeps_bind; [apply keeps_tidy_of_preserves; frame | intros _].
  apply keeps_bind; [apply keeps_tidy_removal | intros _].
  apply keeps_bind; [apply keeps_tidy_create_polylines | intros _].
  apply keeps_bind; [apply keeps_tidy_create_markers | intros _].
  apply keeps_bind; [intros w; apply tidy_open | intros _].
  apply keeps_tidy_of_preserves. frame.
Qed.

Lemma keeps_tidy_handler (i : Input) (w : World) :
  tidy w →
  (∀ m, i = MarkerClick m → m ∈ status_map_markers w) →
  tidy (exec (handler i) w).
Proof.
  intros Hw Hclick. destruct i as [n|m| |data|st]; simpl.
  - rewrite home_select_loco_exec.
    destruct (loose_eq (curr_loco w) n).
    { by apply tidy_with_trace, tidy_with_curr_loco. }
    destruct (other_loco_popup n w).
    + by apply tidy_with_trace, tidy_close, tidy_with_curr_loco.
    + by apply tidy_with_trace, tidy_with_curr_loco.
  - rewrite marker_click_exec. destruct (bool_decide _).
    + by apply tidy_close.
    + apply tidy_open, tidy_set_listener.
      * by apply tidy_close.
      * rewrite (preserves_status_map_markers_close w). by apply Hclick.
      * apply close_infobox.
  - by apply tidy_with_trace.
  - by apply keeps_tidy_success.
  - unfold error. destruct (String.eqb st "timeout"); [|done].
    by apply tidy_with_trace.
Qed.

Lemma empty_map_tidy (w : World) : empty_map w → tidy w.
Proof.
  intros (Hm & Hp & Hpi & Hmap).
  unfold tidy, marker_ids, polyline_ids, listener_ids, popup_ids.
  rewrite Hm, Hp, Hpi, Hmap. simpl.
  split_and!; [set_solver | set_solver | set_solver | constructor | set_solver].
Qed.



(** X7. Only one popup is open at a time (home.js:192).  On a map in
    order: an info window that is on the map is the persisted one, be it
    the info window of a drawn marker or any object on the map that is
    neither a marker nor a polyline; and no two drawn markers have their
    info windows on the map together. *)
Theorem one_popup_at_a_time (w : World) :
  tidy w →
  (∀ m, m ∈ status_map_markers w →
        iw_id (listener_infobox m) ∈ on_map w →
        ∃ iw, infobox (persist_infobox w) = Some iw ∧
              iw_id iw = iw_id (listener_infobox m)) ∧
  (∀ id, id ∈ on_map w → id ∉ marker_ids w → id ∉ polyline_ids w →
         ∃ iw, infobox (persist_infobox w) = Some iw ∧ iw_id iw = id) ∧
  (∀ i j m1 m2,
     status_map_markers w !! i = Some m1 →
     status_map_markers w !! j = Some m2 →
     iw_id (listener_infobox m1) ∈ on_map w →
     iw_id (listener_infobox m2) ∈ on_map w →
     i = j).
Proof.
  intros (Hmap & Hl & Hp & Hnd & Hfresh).
  assert (Hother : ∀ id, id ∈ on_map w → id ∉ marker_ids w → id ∉ polyline_ids w →
                         ∃ iw, infobox (persist_infobox w) = Some iw ∧ iw_id iw = id).
  { intros id Hid Hm Hq. apply Hmap in Hid.
    unfold popup_ids in Hid.
    destruct (infobox (persist_infobox w)) as [iw|]; [|set_solver].
    exists iw. split; [done|]. set_solver. }
  assert (Hshown : ∀ m, m ∈ status_map_markers w →
                        iw_id (listener_infobox m) ∈ on_map w →
                        ∃ iw, infobox (persist_infobox w) = Some iw ∧
                              iw_id iw = iw_id (listener_infobox m)).
  { intros m Hm Hon.
    assert (Hin : iw_id (listener_infobox m) ∈ listener_ids w).
    { unfold listener_ids. apply elem_of_list_to_set, list_elem_of_fmap. eauto. }
    apply Hother; [done| |]; intros ?; apply (Hl (iw_id (listener_infobox m)));
      set_solver. }
  split_and!; [done | done |].
  intros i j m1 m2 H1 H2 Hon1 Hon2.
  destruct (Hshown m1) as (iw1 & Hiw1 & Hid1);
    [by apply list_elem_of_lookup; eauto | done |].
  destruct (Hshown m2) as (iw2 & Hiw2 & Hid2);
    [by apply list_elem_of_lookup; eauto | done |].
  rewrite Hiw1 in Hiw2. injection Hiw2 as <-.
  apply (NoDup_lookup _ i j (iw_id iw1) Hnd).
  - rewrite list_lookup_fmap, H1. simpl. by rewrite Hid1.
  - rewrite list_lookup_fmap, H2. simpl. by rewrite Hid2.
Qed.

Lemma one_popup_at_a_time_witness :
  ∃ iw, infobox (persist_infobox
                   (run [Response (DJson payload_base3); MarkerClick mk_drawn]
                      page_blank)) = Some iw ∧
        iw_id iw = iw_id (listener_infobox mk_drawn).
Proof.
  destruct (one_popup_at_a_time
              (run [Response (DJson payload_base3); MarkerClick mk_drawn] page_blank))
    as (Hshown & _ & _).
  - change (tidy (exec (handler (MarkerClick mk_drawn))
                    (exec (handler (Response (DJson payload_base3))) page_blank))).
    apply keeps_tidy_handler; [apply keeps_tidy_handler|].
    + apply empty_map_tidy. by repeat split.
    + discriminate.
    + intros m [= <-]. vm_compute. apply list_elem_of_here.
  - apply (Hshown mk_drawn).
    + vm_compute. apply list_elem_of_here.
    + by vm_compute.
Defined.

(** X8. After a refresh that runs to its end on a map in order, exactly the
    markers and polylines just drawn and the persisted info window are on
    the map. *)
Theorem refresh_map_contents (p : Payload) (w : World) :
  tidy w →
  result (success (DJson p)) w = Ok tt →
  on_map (exec (success (DJson p)) w) =
  marker_ids (exec (success (DJson p)) w)
  ∪ polyline_ids (exec (success (DJson p)) w)
  ∪ popup_ids (exec (success (DJson p)) w).
Proof.
  intros (Hmap & _) Hok. rewrite (exec_success_json p w Hok).
  unfold marker_ids, polyline_ids. unfold popup_ids at 1.
  rewrite refreshed_on_map, refreshed_status_map_markers,
    refreshed_curr_polylines, refreshed_persist_infobox.
  fold (popup_ids w). set_solver.
Qed.

Lemma refresh_map_contents_witness :
  on_map (exec (success (DJson payload_base3)) page_blank) =
  marker_ids (exec (success (DJson payload_base3)) page_blank)
  ∪ polyline_ids (exec (success (DJson payload_base3)) page_blank)
  ∪ popup_ids (exec (success (DJson payload_base3)) page_blank).
Proof.
  apply refresh_map_contents.
  - apply empty_map_tidy. by repeat split.
  - by vm_compute.
Defined.

Lemma bind_fails_l {A B} (m : M A) (k : A → M B) (w : World) :
  result m w = TypeError → result (m ≫= k) w = TypeError.
Proof.
  unfold result, mbind, M_bind. destruct (m w) as [[a|] w']; simpl; [done|].
  by intros _.
Qed.

Lemma bind_fails_r {A B} (m : M A) (k : A → M B) (w : World) :
  (∀ a w', result (k a) w' = TypeError) → result (m ≫= k) w = TypeError.
Proof.
  intros Hk. unfold result, mbind, M_bind.
  destruct (m w) as [[a|] w']; simpl; [apply Hk | done].
Qed.

Lemma refresh_locos_table_text_html (s : string) :
  preserves locos_table_html (refresh_locos_table (DText s)).
Proof. unfold refresh_locos_table, get_locos_table. frame. Qed.

(** X9. A text body other than "error" never renders: the handler throws
    (at the latest on [data.status_map.markers]); the table is not
    replaced, and the persisted popup and the selection are as before. *)
Theorem text_body_throws (s : string) (w : World) :
  s ≠ "error" →
  result (success (DText s)) w = TypeError ∧
  locos_table_html (exec (success (DText s)) w) = locos_table_html w ∧
  persist_infobox (exec (success (DText s)) w) = persist_infobox w ∧
  curr_loco (exec (success (DText s)) w) = curr_loco w.
Proof.
  intros Hs. apply String.eqb_neq in Hs. split_and!.
  - unfold success. simpl. rewrite Hs.
    do 5 (apply bind_fails_r; intros _ ?).
    by apply bind_fails_l.
  - assert (Hp : preserves locos_table_html (success (DText s))); [|apply Hp].
    unfold success. simpl. rewrite Hs.
    apply preserves_bind; [frame | intros _].
    apply preserves_bind; [apply refresh_locos_table_text_html | intros _].
    frame.
  - apply success_persist_infobox.
  - apply success_curr_loco.
Qed.

Lemma text_body_throws_witness :
  result (success (DText "<html>502</html>")) page0 = TypeError.
Proof. apply text_body_throws. discriminate. Defined.

(** ** Properties of the click handlers *)

Lemma exec_close (w : World) :
  exec close w =
  match infobox (persist_infobox w) with
  | Some iw =>
      with_persist_infobox (constructor None None)
        (with_trace (trace w ++ [EInfoClose iw])
           (with_on_map (on_map w ∖ {[iw_id iw]}) w))
  | None => w
  end.
Proof.
  unfold exec. destruct (infobox (persist_infobox w)) as [iw|] eqn:H.
  - by rewrite (close_Some w iw H).
  - by rewrite (close_None w H).
Qed.

Lemma on_map_exec_close (w : World) :
  on_map (exec close w) = on_map w ∖ popup_ids w.
Proof.
  rewrite exec_close. unfold popup_ids.
  destruct (infobox (persist_infobox w)); [done|].
  by rewrite difference_empty_L.
Qed.

Lemma trace_exec_close (w : World) :
  trace (exec close w) = trace w ++ closed w.
Proof.
  rewrite exec_close. unfold closed.
  destruct (infobox (persist_infobox w)); [done|]. by rewrite app_nil_r.
Qed.

Lemma marker_click_opens (m : Marker) (w : World) :
  iw_id (listener_infobox m) ∉ on_map w →
  persist_infobox (exec (marker_click m) w)
    = {| infobox := Some (listener_infobox m); marker := Some m |} ∧
  on_map (exec (marker_click m) w)
    = {[iw_id (listener_infobox m)]} ∪ (on_map w ∖ popup_ids w) ∧
  trace (exec (marker_click m) w)
    = trace w ++ closed w ++ [EInfoOpen (listener_infobox m) (Some m)].
Proof.
  intros Hoff. rewrite marker_click_exec, bool_decide_eq_false_2 by done.
  rewrite exec_open. simpl. split_and!.
  - done.
  - by rewrite on_map_exec_close.
  - by rewrite trace_exec_close, <- app_assoc.
Qed.

(** X10. A click on a marker whose info window is not on the map closes
    the persisted popup, if any, and then opens this marker's: afterwards
    the marker and its info window are the persisted pair, the info window
    is on the map, the earlier popup is off it, and the close comes before
    the open. *)
Theorem click_opens_and_persists (m : Marker) (w : World) :
  iw_id (listener_infobox m) ∉ on_map w →
  persist_infobox (exec (marker_click m) w)
    = {| infobox := Some (listener_infobox m); marker := Some m |} ∧
  on_map (exec (marker_click m) w)
    = {[iw_id (listener_infobox m)]} ∪ (on_map w ∖ popup_ids w) ∧
  trace (exec (marker_click m) w)
    = trace w ++ closed w ++ [EInfoOpen (listener_infobox m) (Some m)].
Proof. apply marker_click_opens. Qed.

Lemma click_opens_and_persists_witness :
  persist_infobox (exec (marker_click mk_loco1002) (page_with_popup iw_base3 mk_base3))
    = {| infobox := Some iw_loco1002; marker := Some mk_loco1002 |} ∧
  trace (exec (marker_click mk_loco1002) (page_with_popup iw_base3 mk_base3))
    = [EInfoClose iw_base3; EInfoOpen iw_loco1002 (Some mk_loco1002)].
Proof.
  destruct (click_opens_and_persists mk_loco1002 (page_with_popup iw_base3 mk_base3))
    as (Hpi & _ & Htr); [by vm_compute|].
  split; [exact Hpi | exact Htr].
Defined.

(** X11. Two clicks on the same marker toggle its popup: starting with the
    marker's info window off the map, the second click closes what the
    first opened, leaving no popup persisted and the info window off the
    map, with one open and one close of it in the trace. *)
Theorem click_twice_toggles (m : Marker) (w : World) :
  iw_id (listener_infobox m) ∉ on_map w →
  persist_infobox (exec (marker_click m) (exec (marker_click m) w))
    = constructor None None ∧
  on_map (exec (marker_click m) (exec (marker_click m) w))
    = on_map w ∖ popup_ids w ∧
  trace (exec (marker_click m) (exec (marker_click m) w))
    = trace w ++ closed w
      ++ [EInfoOpen (listener_infobox m) (Some m); EInfoClose (listener_infobox m)].
Proof.
  intros Hoff.
  destruct (marker_click_opens m w Hoff) as (Hpi & Hmap & Htr).
  assert (Hon : iw_id (listener_infobox m) ∈ on_map (exec (marker_click m) w))
    by (rewrite Hmap; set_solver).
  rewrite (marker_click_exec m (exec (marker_click m) w)).
  rewrite bool_decide_eq_true_2 by done.
  rewrite exec_close, Hpi. simpl. split_and!.
  - done.
  - rewrite Hmap. set_solver.
  - rewrite Htr. by rewrite <- !app_assoc.
Qed.

Lemma click_twice_toggles_witness :
  persist_infobox (exec (marker_click mk_base3) (exec (marker_click mk_base3) page0))
    = constructor None None ∧
  trace (exec (marker_click mk_base3) (exec (marker_click mk_base3) page0))
    = [EInfoOpen iw_base3 (Some mk_base3); EInfoClose iw_base3].
Proof.
  destruct (click_twice_toggles mk_base3 page0) as (Hpi & _ & Htr);
    [by vm_compute|].
  split; [exact Hpi | exact Htr].
Defined.

(** X12. [home_select_loco] never throws and always ends by issuing one
    refresh request, whose body carries the selection as the toggle left it
    (null after a deselection); the only call before it is the close of the
    persisted popup, when that popup is another loco's. *)
Theorem select_issues_one_request (n : string) (w : World) :
  result (home_select_loco n) w = Ok tt ∧
  trace (exec (home_select_loco n) w)
    = trace w
      ++ (if negb (loose_eq (curr_loco w) n) && other_loco_popup n w
          then closed w else [])
      ++ [EAjax (curr_loco (exec (home_select_loco n) w))] ∧
  curr_loco (exec (home_select_loco n) w)
    = (if loose_eq (curr_loco w) n then None else Some n).
Proof.
  split_and!.
  - destruct (home_select_loco_returns n w) as [[] H]. exact H.
  - rewrite home_select_loco_curr_loco, home_select_loco_exec.
    destruct (loose_eq (curr_loco w) n); simpl; [done|].
    destruct (other_loco_popup n w); simpl; [|done].
    unfold requested. fields. rewrite trace_exec_close.
    rewrite close_curr_loco. fields. by rewrite <- app_assoc.
  - apply home_select_loco_curr_loco.
Qed.

(** X13. Deselecting the selected row, or selecting the loco whose own
    popup is persisted, leaves the popup alone: the two references and what
    is on the map are as before. *)
Theorem select_keeps_own_popup (n : string) (w : World) :
  curr_loco w = Some n ∨
    (∃ m, marker (persist_infobox w) = Some m ∧ title m = n) →
  persist_infobox (exec (home_select_loco n) w) = persist_infobox w ∧
  on_map (exec (home_select_loco n) w) = on_map w.
Proof.
  intros H. rewrite home_select_loco_exec.
  destruct (loose_eq (curr_loco w) n) eqn:Hsel; [done|].
  assert (Hother : other_loco_popup n w = false).
  { destruct H as [H|(m & Hm & Ht)].
    - rewrite H in Hsel. simpl in Hsel. by rewrite String.eqb_refl in Hsel.
    - unfold other_loco_popup. rewrite Hm, Ht, String.eqb_refl.
      by rewrite andb_false_r. }
  by rewrite Hother.
Qed.

Lemma select_keeps_own_popup_witness :
  persist_infobox (exec (home_select_loco "Loco 1002")
                     (page_with_popup iw_loco1002 mk_loco1002))
    = {| infobox := Some iw_loco1002; marker := Some mk_loco1002 |}.
Proof.
  apply (select_keeps_own_popup "Loco 1002" (page_with_popup iw_loco1002 mk_loco1002)).
  right. by exists mk_loco1002.
Defined.

(** ** More properties of the class *)

(** X14. [is_for_device(name)] returns true if and only if a marker is held
    and its title equals [name] (the strings compared character by
    character); right after [set(i, m)] with a marker [m] it is true for the
    title of [m] and for no other name. *)
Theorem is_for_device_spec (n : string) (w : World) :
  (result (is_for_device n) w = Ok (VBool true) ↔
   ∃ m, marker (persist_infobox w) = Some m ∧ title m = n) ∧
  (∀ i m, result (is_for_device n) (exec (set i (Some m)) w) = Ok (VBool true)
          ↔ title m = n).
Proof.
  split.
  - rewrite is_for_device_result. destruct (marker (persist_infobox w)) as [m|].
    + split.
      * intros [= H]. exists m. split; [done|]. by apply String.eqb_eq.
      * intros (m' & [= <-] & H). apply String.eqb_eq in H. by rewrite H.
    + split; [done | by intros (m' & ? & _)].
  - intros i m. rewrite is_for_device_result. simpl. split.
    + intros [= H]. by apply String.eqb_eq.
    + intros H. apply String.eqb_eq in H. by rewrite H.
Qed.

(** X15. [set] and [clear] never hide a popup, and once they have dropped
    the reference to an info window that is on the map, [close] no longer
    reaches it: it stays on the map. *)
Theorem dropped_popup_stays_open (w : World) (old : InfoWindow) :
  infobox (persist_infobox w) = Some old →
  iw_id old ∈ on_map w →
  (∀ i m, on_map (exec (set i m) w) = on_map w) ∧
  on_map (exec clear w) = on_map w ∧
  iw_id old ∈ on_map (exec close (exec clear w)) ∧
  (∀ new m, iw_id new ≠ iw_id old →
            iw_id old ∈ on_map (exec close (exec (set (Some new) m) w))).
Proof.
  intros Hold Hon. split_and!; try done.
  intros new m Hne. rewrite on_map_exec_close. simpl.
  unfold popup_ids. simpl. set_solver.
Qed.

Lemma dropped_popup_stays_open_witness :
  iw_id iw_base3
    ∈ on_map (exec close (exec (set (Some iw_loco1002) (Some mk_loco1002))
                            (page_with_popup iw_base3 mk_base3))).
Proof.
  destruct (dropped_popup_stays_open (page_with_popup iw_base3 mk_base3) iw_base3)
    as (_ & _ & _ & H); [reflexivity | by vm_compute |].
  apply H. discriminate.
Defined.

(** ** The refresh timer *)

Lemma home_start_async_timer_one (value : N) (s : Scheduler) :
  idle s → one_timer (value * 1000) (home_start_async_timer value s).
Proof.
  intros [_ Hnone]. exists (next_handle s). split; [done|].
  simpl. by rewrite Hnone, insert_empty.
Qed.

Lemma refresh_slider_oninput_one (value ms : N) (s : Scheduler) :
  one_timer ms s →
  one_timer (value * 1000) (refresh_slider_oninput value s) ∧
  refresh_val (refresh_slider_oninput value s)
    = Some (Seconds_of_ms (value * 1000)).
Proof.
  intros (h & Hh & Hrun). unfold refresh_slider_oninput. rewrite Hh. simpl.
  split; [|reflexivity].
  exists (next_handle s). split; [reflexivity|]. simpl.
  by rewrite Hrun, delete_singleton_eq, insert_empty.
Qed.

Lemma slide_some_timer (values : list N) (ms : N) (s : Scheduler) :
  one_timer ms s → ∃ ms', one_timer ms' (slide values s).
Proof.
  unfold slide. revert ms s.
  induction values as [|v values IH]; intros ms s Hs; simpl; [eauto|].
  apply (refresh_slider_oninput_one v) in Hs as [Hs _]. by apply IH in Hs.
Qed.

Lemma slide_snoc (values : list N) (v : N) (s : Scheduler) :
  slide (values ++ [v]) s = refresh_slider_oninput v (slide values s).
Proof. unfold slide. by rewrite foldl_app. Qed.

(** X16. One refresh timer at a time.  Started on an idle scheduler and
    with the slider then moved any number of times, the script leaves
    exactly one interval timer running, the one whose handle it holds; its
    period is 1000 times the slider's last value (the starting value when
    the slider was never moved).  After a move the readout shows that
    period in seconds. *)
Theorem one_refresh_timer (start : N) (values : list N) (s : Scheduler) :
  idle s →
  one_timer (default start (last values) * 1000)
    (slide values (home_start_async_timer start s)) ∧
  (∀ v, last values = Some v →
        refresh_val (slide values (home_start_async_timer start s))
          = Some (Seconds_of_ms (v * 1000))).
Proof.
  intros Hidle. apply (home_start_async_timer_one start) in Hidle.
  destruct values as [|v values _] using rev_ind; [done|].
  rewrite last_snoc, slide_snoc. simpl.
  destruct (slide_some_timer values _ _ Hidle) as [ms Hms].
  apply (refresh_slider_oninput_one v) in Hms as [Hone Hread].
  split; [done|]. by intros ? [= <-].
Qed.

Lemma one_refresh_timer_witness :
  one_timer 2000 (slide [7; 2]%N (home_start_async_timer 5 scheduler0)).
Proof. apply (one_refresh_timer 5 [7; 2]%N scheduler0). by split. Defined.
